(** * Space Invaders: a shallow embedding of [Space_invaders.py]

    The simulation core of the game (entity movement, pruning, formation
    bounce, collision resolution, lives and restart) is embedded as pure
    functions over records.  Python integers are unbounded, so every
    coordinate and counter is a [Z]; Python's [//] on a positive divisor is
    [Z.div].  Methods that mutate [self] become functions from the old object
    to the new one; the lists of bullets and aliens keep the order of the
    Python lists.  Drawing, fonts and the frame clock do not influence the
    simulated state and are left out. *)

From Stdlib Require Import String DecimalString ZArith List Bool Lia Sorted.
Import ListNotations.
Open Scope Z_scope.

(** ** Constants *)

Definition SCREEN_WIDTH : Z := 800.
Definition SCREEN_HEIGHT : Z := 600.
Definition PLAYER_SPEED : Z := 5.
Definition BULLET_SPEED : Z := 7.
Definition ALIEN_SPEED : Z := 1.
Definition ALIEN_DROP_SPEED : Z := 20.

Definition Color : Set := (Z * Z * Z)%type.

Definition BLACK : Color := (0, 0, 0).
Definition WHITE : Color := (255, 255, 255).
Definition GREEN : Color := (0, 255, 0).
Definition RED : Color := (255, 0, 0).
Definition BLUE : Color := (0, 0, 255).
Definition YELLOW : Color := (255, 255, 0).

(** ** Drawing

    The calls that [draw] makes on the screen, in order, stand for what is
    drawn.  A text is one command: the [font.render] of the string (with its
    antialias flag and colour) and the [screen.blit] of the result, either
    with its top left corner at a point or, through
    [get_rect(center=...)], centred on one. *)

Inductive Anchor : Set :=
| topleft (x y : Z)
| center (x y : Z).

Inductive Draw : Set :=
| fill (c : Color)
| draw_rect (c : Color) (r : Z * Z * Z * Z)
| draw_polygon (c : Color) (points : list (Z * Z))
| draw_ellipse (c : Color) (r : Z * Z * Z * Z)
| blit_text (text : string) (antialias : bool) (c : Color) (at_ : Anchor)
| flip.

(** An integer in an f-string: its decimal digits, with a minus sign when
    negative. *)
Definition format_int (n : Z) : string := NilZero.string_of_int (Z.to_int n).

(** ** Rectangles

    [pygame.Rect(x, y, w, h)] keeps its four fields as C [int]s: a Python
    integer in the range of an [int] is kept as it is and any other is cut
    to 32 bits, two's complement, when the rectangle is built, and the far
    edges [x + w] and [y + h] that [colliderect] compares are computed in the
    same 32 bits.  Two rectangles collide when
    their interiors overlap; rectangles of zero width or height collide
    with nothing, and a negative size is read as extending to the other
    side. *)

Definition c_int (z : Z) : Z :=
  if (- 2147483648 <=? z) && (z <=? 2147483647) then z
  else (z + 2147483648) mod 4294967296 - 2147483648.

Module Rect.

Record t : Set := mk { x : Z; y : Z; w : Z; h : Z }.

(** [pygame.Rect(x0, y0, w0, h0)] *)
Definition make (x0 y0 w0 h0 : Z) : t :=
  mk (c_int x0) (c_int y0) (c_int w0) (c_int h0).

Definition colliderect (A B : t) : bool :=
  if (w A =? 0) || (h A =? 0) || (w B =? 0) || (h B =? 0) then false
  else
    (Z.min (x A) (c_int (x A + w A)) <? Z.max (x B) (c_int (x B + w B))) &&
    (Z.min (y A) (c_int (y A + h A)) <? Z.max (y B) (c_int (y B + h B))) &&
    (Z.max (x A) (c_int (x A + w A)) >? Z.min (x B) (c_int (x B + w B))) &&
    (Z.max (y A) (c_int (y A + h A)) >? Z.min (y B) (c_int (y B + h B))).

End Rect.

(** ** class Player *)

Module Player.

Record t : Set := mk { x : Z; y : Z; width : Z; height : Z; speed : Z }.

(** [Player.__init__(x, y)] *)
Definition init (x0 y0 : Z) : t :=
  {| x := x0; y := y0; width := 50; height := 40; speed := PLAYER_SPEED |}.

Definition set_x (v : Z) (p : t) : t :=
  {| x := v; y := y p; width := width p; height := height p; speed := speed p |}.

(** [if self.x > 0: self.x -= self.speed] *)
Definition move_left (p : t) : t :=
  if x p >? 0 then set_x (x p - speed p) p else p.

(** [if self.x < SCREEN_WIDTH - self.width: self.x += self.speed] *)
Definition move_right (p : t) : t :=
  if x p <? SCREEN_WIDTH - width p then set_x (x p + speed p) p else p.

Definition get_rect (p : t) : Rect.t :=
  Rect.make (x p) (y p) (width p) (height p).

(** [Player.draw]: the body and the tip of the rocket. *)
Definition draw (p : t) : list Draw :=
  let tip_points :=
    [(x p + width p / 2, y p - 10); (x p + 10, y p); (x p + width p - 10, y p)] in
  [draw_rect GREEN (x p, y p, width p, height p); draw_polygon GREEN tip_points].

End Player.

(** ** class Bullet *)

Module Bullet.

Record t : Set := mk { x : Z; y : Z; width : Z; height : Z; speed : Z }.

(** [Bullet.__init__(x, y)] *)
Definition init (x0 y0 : Z) : t :=
  {| x := x0; y := y0; width := 5; height := 10; speed := BULLET_SPEED |}.

Definition set_y (v : Z) (b : t) : t :=
  {| x := x b; y := v; width := width b; height := height b; speed := speed b |}.

(** [self.y -= self.speed] *)
Definition move (b : t) : t := set_y (y b - speed b) b.

(** [return self.y < 0] *)
Definition is_off_screen (b : t) : bool := y b <? 0.

Definition get_rect (b : t) : Rect.t :=
  Rect.make (x b) (y b) (width b) (height b).

(** [Bullet.draw] *)
Definition draw (b : t) : list Draw :=
  [draw_rect YELLOW (x b, y b, width b, height b)].

End Bullet.

(** ** class Alien *)

Module Alien.

Record t : Set :=
  mk { x : Z; y : Z; width : Z; height : Z; speed : Z; direction : Z }.

(** [Alien.__init__(x, y)]: every alien starts moving right. *)
Definition init (x0 y0 : Z) : t :=
  {| x := x0; y := y0; width := 40; height := 30;
     speed := ALIEN_SPEED; direction := 1 |}.

(** [self.x += self.speed * self.direction] *)
Definition move (a : t) : t :=
  {| x := x a + speed a * direction a; y := y a; width := width a;
     height := height a; speed := speed a; direction := direction a |}.

(** [self.y += ALIEN_DROP_SPEED; self.direction *= -1] *)
Definition drop_down (a : t) : t :=
  {| x := x a; y := y a + ALIEN_DROP_SPEED; width := width a;
     height := height a; speed := speed a; direction := direction a * -1 |}.

Definition get_rect (a : t) : Rect.t :=
  Rect.make (x a) (y a) (width a) (height a).

(** The edge test of [Game.update_aliens]:
    [alien.x <= 0 or alien.x >= SCREEN_WIDTH - alien.width]. *)
Definition at_edge (a : t) : bool :=
  (x a <=? 0) || (x a >=? SCREEN_WIDTH - width a).

(** [Alien.draw]: the body of the UFO and its dome. *)
Definition draw (a : t) : list Draw :=
  [draw_ellipse RED (x a, y a, width a, height a);
   draw_ellipse (150, 0, 0) (x a + 5, y a - 10, width a - 10, 20)].

End Alien.

(** ** Input: the event queue and the held keys *)

Inductive Key : Set := K_SPACE | K_r | K_LEFT | K_RIGHT | K_a | K_d | K_other.

Definition Key_eqb (k1 k2 : Key) : bool :=
  match k1, k2 with
  | K_SPACE, K_SPACE | K_r, K_r | K_LEFT, K_LEFT | K_RIGHT, K_RIGHT
  | K_a, K_a | K_d, K_d | K_other, K_other => true
  | _, _ => false
  end.

(** One entry of [pygame.event.get()]; only [QUIT] and [KEYDOWN] are read. *)
Inductive Event : Set :=
| QUIT
| KEYDOWN (key : Key)
| OTHER_EVENT.

(** [pygame.key.get_pressed()] *)
Definition Pressed : Set := Key -> bool.

(** ** class Game *)

Module Game.

Record t : Set := mk {
  player : Player.t;
  bullets : list Bullet.t;
  aliens : list Alien.t;
  score : Z;
  lives : Z;
  game_over : bool
}.

Definition set_player (p : Player.t) (g : t) : t :=
  mk p (bullets g) (aliens g) (score g) (lives g) (game_over g).
Definition set_bullets (bs : list Bullet.t) (g : t) : t :=
  mk (player g) bs (aliens g) (score g) (lives g) (game_over g).
Definition set_aliens (als : list Alien.t) (g : t) : t :=
  mk (player g) (bullets g) als (score g) (lives g) (game_over g).
Definition set_score (s : Z) (g : t) : t :=
  mk (player g) (bullets g) (aliens g) s (lives g) (game_over g).
Definition set_lives (l : Z) (g : t) : t :=
  mk (player g) (bullets g) (aliens g) (score g) l (game_over g).
Definition set_game_over (b : bool) (g : t) : t :=
  mk (player g) (bullets g) (aliens g) (score g) (lives g) b.

Definition rows : nat := 5.
Definition cols : nat := 10.

(** The list built by the two nested [range] loops of
    [create_alien_formation], row by row. *)
Definition alien_formation : list Alien.t :=
  flat_map
    (fun row =>
       map (fun col => Alien.init (Z.of_nat col * 60 + 50) (Z.of_nat row * 50 + 50))
           (seq 0 cols))
    (seq 0 rows).

Definition create_alien_formation (g : t) : t := set_aliens alien_formation g.

(** [Game.__init__] *)
Definition init : t :=
  create_alien_formation
    {| player := Player.init (SCREEN_WIDTH / 2 - 25) (SCREEN_HEIGHT - 80);
       bullets := []; aliens := []; score := 0; lives := 3;
       game_over := false |}.

(** [restart_game] *)
Definition restart_game (g : t) : t :=
  let g := set_player (Player.init (SCREEN_WIDTH / 2 - 25) (SCREEN_HEIGHT - 80)) g in
  let g := set_bullets [] g in
  let g := set_score 0 g in
  let g := set_lives 3 g in
  let g := set_game_over false g in
  create_alien_formation g.

(** The body of the [K_SPACE] branch of [handle_events]. *)
Definition fire (g : t) : t :=
  let bullet_x := Player.x (player g) + Player.width (player g) / 2 - 2 in
  let bullet_y := Player.y (player g) in
  set_bullets (bullets g ++ [Bullet.init bullet_x bullet_y]) g.

(** [handle_events]: the events of one frame in queue order.  The result
    pairs the returned flag with the game; [QUIT] returns at once and leaves
    the rest of the queue unread. *)
Fixpoint handle_events (evs : list Event) (g : t) : bool * t :=
  match evs with
  | [] => (true, g)
  | QUIT :: _ => (false, g)
  | KEYDOWN key :: rest =>
      if Key_eqb key K_SPACE && negb (game_over g) then
        handle_events rest (fire g)
      else if Key_eqb key K_r && game_over g then
        handle_events rest (restart_game g)
      else handle_events rest g
  | OTHER_EVENT :: rest => handle_events rest g
  end.

(** [handle_input] *)
Definition handle_input (keys : Pressed) (g : t) : t :=
  if negb (game_over g) then
    let g := if keys K_LEFT || keys K_a
             then set_player (Player.move_left (player g)) g else g in
    let g := if keys K_RIGHT || keys K_d
             then set_player (Player.move_right (player g)) g else g in
    g
  else g.

(** [update_bullets]: first drop the bullets that are off screen, then move
    the remaining ones. *)
Definition update_bullets (g : t) : t :=
  let kept := filter (fun bullet => negb (Bullet.is_off_screen bullet)) (bullets g) in
  set_bullets (map Bullet.move kept) g.

(** The first loop of [update_aliens]: move every alien and record whether
    any of them is at an edge after its move. *)
Fixpoint move_aliens (als : list Alien.t) (hit_edge : bool) : list Alien.t * bool :=
  match als with
  | [] => ([], hit_edge)
  | alien :: rest =>
      let alien := Alien.move alien in
      let hit_edge := if Alien.at_edge alien then true else hit_edge in
      let (rest, hit_edge) := move_aliens rest hit_edge in
      (alien :: rest, hit_edge)
  end.

(** [update_aliens] *)
Definition update_aliens (g : t) : t :=
  let g := match aliens g with
           | [] => create_alien_formation g
           | _ :: _ => g
           end in
  let (moved, hit_edge) := move_aliens (aliens g) false in
  if hit_edge then set_aliens (map Alien.drop_down moved) g
  else set_aliens moved g.

(** The inner loop of [check_collisions] for one bullet: the aliens without
    the first one that the bullet's rectangle overlaps, or [None] when it
    overlaps none. *)
Fixpoint hit_alien (bullet : Bullet.t) (als : list Alien.t) : option (list Alien.t) :=
  match als with
  | [] => None
  | alien :: rest =>
      if Rect.colliderect (Bullet.get_rect bullet) (Alien.get_rect alien)
      then Some rest
      else match hit_alien bullet rest with
           | Some rest' => Some (alien :: rest')
           | None => None
           end
  end.

(** The outer loop of [check_collisions] over the copy [self.bullets[:]].
    Python's [list.remove] compares by identity here (the classes define no
    [__eq__]) and every list element is a distinct object, so the bullet
    under iteration is the one removed: the result keeps, in order, the
    bullets that hit nothing. *)
Fixpoint collide_bullets (bs : list Bullet.t) (als : list Alien.t) (sc : Z)
  : list Bullet.t * list Alien.t * Z :=
  match bs with
  | [] => ([], als, sc)
  | bullet :: rest =>
      match hit_alien bullet als with
      | Some als' => collide_bullets rest als' (sc + 10)
      | None =>
          let '(kept, als', sc') := collide_bullets rest als sc in
          (bullet :: kept, als', sc')
      end
  end.

(** [check_collisions] *)
Definition check_collisions (g : t) : t :=
  let '(bs, als, sc) := collide_bullets (bullets g) (aliens g) (score g) in
  set_score sc (set_aliens als (set_bullets bs g)).

(** The breach test of [check_alien_collision_with_player]. *)
Definition breaches (player_rect : Rect.t) (alien : Alien.t) : bool :=
  Rect.colliderect (Alien.get_rect alien) player_rect
  || (Alien.y alien >=? SCREEN_HEIGHT - 100).

(** The loop of [check_alien_collision_with_player]; it stops at the first
    alien that breaches. *)
Fixpoint breach_loop (player_rect : Rect.t) (als : list Alien.t) (g : t) : t :=
  match als with
  | [] => g
  | alien :: rest =>
      if breaches player_rect alien then
        let g := set_lives (lives g - 1) g in
        if lives g <=? 0 then set_game_over true g
        else create_alien_formation g
      else breach_loop player_rect rest g
  end.

(** [check_alien_collision_with_player] *)
Definition check_alien_collision_with_player (g : t) : t :=
  let player_rect := Player.get_rect (player g) in
  breach_loop player_rect (aliens g) g.

(** [draw]: the screen is cleared; the player, the bullets and the aliens
    are drawn only while the game is on; the score and the lives always; the
    two messages only when the game is over; then the display is flipped. *)
Definition draw (g : t) : list Draw :=
  [fill BLACK]
  ++ (if negb (game_over g) then
        Player.draw (player g)
        ++ flat_map Bullet.draw (bullets g)
        ++ flat_map Alien.draw (aliens g)
      else [])
  ++ [blit_text (String.append "Score: " (format_int (score g))) true WHITE (topleft 10 10);
      blit_text (String.append "Lives: " (format_int (lives g))) true WHITE (topleft 10 50)]
  ++ (if game_over g then
        [blit_text "GAME OVER!" true RED
                   (center (SCREEN_WIDTH / 2) (SCREEN_HEIGHT / 2));
         blit_text "Press 'R' to restart" true WHITE
                   (center (SCREEN_WIDTH / 2) (SCREEN_HEIGHT / 2 + 50))]
      else [])
  ++ [flip].

(** One pass through the body of the [while] loop of [run], up to the state
    that [draw] is given: the flag returned by [handle_events] and the game. *)
Definition run_iteration (evs : list Event) (keys : Pressed) (g : t) : bool * t :=
  let (running, g) := handle_events evs g in
  let g :=
    if negb (game_over g) then
      let g := handle_input keys g in
      let g := update_bullets g in
      let g := update_aliens g in
      let g := check_collisions g in
      check_alien_collision_with_player g
    else g in
  (running, g).

(** [run] on a script of frames (the event queue and the held keys of each
    frame): the game that the last executed frame draws.  The loop ends with
    the first frame whose [handle_events] returns [False]. *)
Fixpoint run (frames : list (list Event * Pressed)) (g : t) : t :=
  match frames with
  | [] => g
  | (evs, keys) :: rest =>
      let (running, g) := run_iteration evs keys g in
      if running then run rest g else g
  end.

End Game.

(** * Vocabulary of the properties *)

Import Game.

(** The aliens that [update_aliens] moves: a fresh formation when the
    collection is empty, the collection itself otherwise. *)
Definition wave (g : t) : list Alien.t :=
  match aliens g with
  | [] => alien_formation
  | _ :: _ => aliens g
  end.

(** The player built by [Player.__init__] keeps its width and speed, and from
    the start position its [x] stays a multiple of the speed inside the
    playfield. *)
Definition player_ok (p : Player.t) : Prop :=
  Player.width p = 50 /\ Player.speed p = 5 /\
  (exists k, Player.x p = 5 * k) /\
  0 <= Player.x p <= SCREEN_WIDTH - Player.width p.

(** What [update_bullets] does to the list of bullets. *)
Definition prune_move (bs : list Bullet.t) : list Bullet.t :=
  map Bullet.move (filter (fun bullet => negb (Bullet.is_off_screen bullet)) bs).

(** The fresh formation after one step to the right. *)
Definition advanced_formation : list Alien.t :=
  flat_map
    (fun row =>
       map (fun col => Alien.init (Z.of_nat col * 60 + 51) (Z.of_nat row * 50 + 50))
           (seq 0 cols))
    (seq 0 rows).

(** Held keys: only the left arrow, and nothing. *)
Definition hold_left : Pressed := fun key => Key_eqb key K_LEFT.
Definition hold_nothing : Pressed := fun _ => false.

(** All aliens of a collection move the same way: one direction, +1 or -1,
    is shared by every member. *)
Definition uniform_direction (als : list Alien.t) : Prop :=
  exists d, (d = 1 \/ d = -1) /\ Forall (fun a => Alien.direction a = d) als.

(** One alien before and after a frame with a synchronized drop. *)
Definition moved_and_dropped (a a' : Alien.t) : Prop :=
  Alien.x a' = Alien.x a + Alien.speed a * Alien.direction a /\
  Alien.y a' = Alien.y a + ALIEN_DROP_SPEED /\
  Alien.direction a' = - Alien.direction a.

(** One alien before and after a frame without a drop. *)
Definition moved_only (a a' : Alien.t) : Prop :=
  Alien.x a' = Alien.x a + Alien.speed a * Alien.direction a /\
  Alien.y a' = Alien.y a /\
  Alien.direction a' = Alien.direction a.

(** The collision test of [check_collisions] for one bullet and one alien. *)
Definition overlaps (b : Bullet.t) (a : Alien.t) : bool :=
  Rect.colliderect (Bullet.get_rect b) (Alien.get_rect a).

(** What [check_collisions] did, by counting: no bullet appeared, every
    removed bullet removed exactly one alien, and scored exactly 10. *)
Definition one_kill_per_removed_bullet (g g' : t) : Prop :=
  (length (bullets g') <= length (bullets g))%nat /\
  length (aliens g) =
    (length (aliens g') + (length (bullets g) - length (bullets g')))%nat /\
  score g' = score g + 10 * Z.of_nat (length (bullets g) - length (bullets g')).

(** The bullet that a fire command creates for the player of [g]. *)
Definition fired_bullet (g : t) : Bullet.t :=
  Bullet.init (Player.x (player g) + Player.width (player g) / 2 - 2)
              (Player.y (player g)).

(** Some alien breaches: it overlaps the player or is at the floor line. *)
Definition breached (g : t) : bool :=
  existsb (breaches (Player.get_rect (player g))) (aliens g).

(** The parts of the player that no method changes, as [Game.__init__] and
    [restart_game] set them. *)
Definition player_placed (p : Player.t) : Prop :=
  Player.y p = SCREEN_HEIGHT - 80 /\ Player.height p = 40 /\
  Player.width p = 50 /\ Player.speed p = PLAYER_SPEED.

(** Lives and the game-over flag go together: playing with one to three
    lives, or over with none. *)
Definition lives_ok (g : t) : Prop :=
  (game_over g = false /\ 1 <= lives g <= 3) \/
  (game_over g = true /\ lives g = 0).

(** The score is a count of tens. *)
Definition score_ok (g : t) : Prop := exists k, 0 <= k /\ score g = 10 * k.

(** The number of fire commands that [handle_events] reads from a queue: the
    [K_SPACE] presses before the first [QUIT]. *)
Fixpoint fires (evs : list Event) : nat :=
  match evs with
  | [] => 0
  | QUIT :: _ => 0
  | KEYDOWN K_SPACE :: rest => S (fires rest)
  | _ :: rest => fires rest
  end.

(** The simulation steps of one frame, in the order of [run]. *)
Definition simulate (keys : Pressed) (g : t) : t :=
  check_alien_collision_with_player
    (check_collisions (update_aliens (update_bullets (handle_input keys g)))).

Definition is_quit (e : Event) : bool :=
  match e with
  | QUIT => true
  | _ => false
  end.

(** A bullet as [Bullet.__init__] sizes it, fired from a player inside the
    playfield, not lower than [top] and at most one step above the screen. *)
Definition bullet_within (top : Z) (b : Bullet.t) : Prop :=
  Bullet.width b = 5 /\ Bullet.height b = 10 /\ Bullet.speed b = BULLET_SPEED /\
  23 <= Bullet.x b <= 773 /\ - BULLET_SPEED <= Bullet.y b <= top.

(** The collection lists the bullets from the highest on the screen to the
    lowest. *)
Definition highest_first (bs : list Bullet.t) : Prop :=
  StronglySorted (fun b1 b2 => Bullet.y b1 <= Bullet.y b2) bs.

(** The bullets of a drawn state, with what is needed of the player to fire
    the next ones. *)
Definition bullets_ok (top : Z) (g : t) : Prop :=
  player_ok (player g) /\ player_placed (player g) /\
  Forall (bullet_within top) (bullets g) /\ highest_first (bullets g).

(** An alien as [Alien.__init__] sizes it, moving in direction [d], with its
    [x] in the band of width 540 (nine columns of 60) that starts at [lo],
    and not above the first row. *)
Definition alien_in_band (d lo : Z) (a : Alien.t) : Prop :=
  Alien.direction a = d /\
  Alien.width a = 40 /\ Alien.height a = 30 /\ Alien.speed a = ALIEN_SPEED /\
  lo <= Alien.x a <= lo + 540 /\ 50 <= Alien.y a.

(** The band is inside the screen, with one step of room on the side the
    formation moves to. *)
Definition band_on_screen (d lo : Z) : Prop :=
  (d = 1 /\ 0 <= lo <= 219) \/ (d = -1 /\ 1 <= lo <= 220).

Definition aliens_ok (als : list Alien.t) : Prop :=
  (length als <= 50)%nat /\
  exists d lo, band_on_screen d lo /\ Forall (alien_in_band d lo) als.

(** An alien as sized by [Alien.__init__] that is inside the screen
    horizontally, at or below the first row. *)
Definition alien_on_screen (a : Alien.t) : Prop :=
  Alien.width a = 40 /\ Alien.height a = 30 /\ Alien.speed a = ALIEN_SPEED /\
  0 <= Alien.x a <= SCREEN_WIDTH - Alien.width a /\ 50 <= Alien.y a.

(** What [update_aliens] does to a collection that is not empty. *)
Definition advance (als : list Alien.t) : list Alien.t :=
  if existsb Alien.at_edge (map Alien.move als)
  then map Alien.drop_down (map Alien.move als)
  else map Alien.move als.

(** [subsequence l' l]: [l'] is [l] with some elements left out, the others
    in their order. *)
Inductive subsequence {A : Type} : list A -> list A -> Prop :=
| subsequence_nil : subsequence [] []
| subsequence_skip (a : A) (l' l : list A) :
    subsequence l' l -> subsequence l' (a :: l)
| subsequence_keep (a : A) (l' l : list A) :
    subsequence l' l -> subsequence (a :: l') (a :: l).

(** No bullet of the game overlaps an alien of the game. *)
Definition settled (g : t) : Prop :=
  Forall (fun b => existsb (overlaps b) (aliens g) = false) (bullets g).

(** An alien as sized by [Alien.__init__], at or below the first row, whose
    [y] is a multiple of 10. *)
Definition alien_on_grid (a : Alien.t) : Prop :=
  Alien.width a = 40 /\ Alien.height a = 30 /\
  50 <= Alien.y a /\ exists k, Alien.y a = 10 * k.

(** The floor part of the breach test alone. *)
Definition at_floor (a : Alien.t) : bool := Alien.y a >=? SCREEN_HEIGHT - 100.

(** The rectangle of an alien lies inside the screen. *)
Definition alien_inside_screen (a : Alien.t) : Prop :=
  0 <= Alien.x a /\ Alien.x a + Alien.width a <= SCREEN_WIDTH /\
  0 <= Alien.y a /\ Alien.y a + Alien.height a <= SCREEN_HEIGHT.

(** The bounding box [(left, top, right, bottom)] of what a command paints
    as a shape: the rectangle itself, the rectangle around an ellipse, the
    extent of the points of a polygon.  Clearing, texts and the flip have
    none. *)
Definition bbox (d : Draw) : option (Z * Z * Z * Z) :=
  match d with
  | draw_rect _ (x, y, w, h) => Some (x, y, x + w, y + h)
  | draw_ellipse _ (x, y, w, h) => Some (x, y, x + w, y + h)
  | draw_polygon _ ((px, py) :: points) =>
      Some (fold_left
              (fun '(x0, y0, x1, y1) '(qx, qy) =>
                 (Z.min x0 qx, Z.min y0 qy, Z.max x1 qx, Z.max y1 qy))
              points (px, py, px, py))
  | _ => None
  end.

Definition is_shape (d : Draw) : bool :=
  match bbox d with
  | Some _ => true
  | None => false
  end.

(** A value that a C [int] holds unchanged. *)
Definition fits_c_int (z : Z) : Prop := - 2147483648 <= z <= 2147483647.

(** The rectangle of a bullet, of an alien, is held by [pygame.Rect] as it
    is, far edges included. *)
Definition bullet_rect_fits (b : Bullet.t) : Prop :=
  fits_c_int (Bullet.x b) /\ fits_c_int (Bullet.y b) /\
  fits_c_int (Bullet.width b) /\ fits_c_int (Bullet.height b) /\
  fits_c_int (Bullet.x b + Bullet.width b) /\
  fits_c_int (Bullet.y b + Bullet.height b).

Definition alien_rect_fits (a : Alien.t) : Prop :=
  fits_c_int (Alien.x a) /\ fits_c_int (Alien.y a) /\
  fits_c_int (Alien.width a) /\ fits_c_int (Alien.height a) /\
  fits_c_int (Alien.x a + Alien.width a) /\
  fits_c_int (Alien.y a + Alien.height a).

Definition rects_fit (g : t) : Prop :=
  Forall bullet_rect_fits (bullets g) /\ Forall alien_rect_fits (aliens g).

(** [n] more frames can pass without any alien reaching the floor line. *)
Fixpoint idle_frames_ok (n : nat) (als : list Alien.t) : bool :=
  match n with
  | O => true
  | S n' => negb (existsb at_floor (advance als)) && idle_frames_ok n' (advance als)
  end.

(** * Properties *)

(** ** C integers *)

Lemma c_int_fits (z : Z) : fits_c_int z -> c_int z = z.
Proof.
  unfold fits_c_int, c_int. intros H.
  destruct (Z.leb_spec (- 2147483648) z); destruct (Z.leb_spec z 2147483647);
    cbn [andb]; try reflexivity; lia.
Qed.

Ltac c_int_small :=
  repeat match goal with
         | |- context [c_int ?z] =>
             rewrite (c_int_fits z) by (unfold fits_c_int; lia)
         end.

(** ** Which fields each step of the frame touches *)

Lemma breach_loop_player (r : Rect.t) (als : list Alien.t) (g : t) :
  player (breach_loop r als g) = player g.
Proof.
  induction als as [|a als IH]; simpl; [reflexivity|].
  destruct (breaches r a); [|exact IH].
  destruct (lives g - 1 <=? 0); reflexivity.
Qed.

Lemma breach_loop_bullets (r : Rect.t) (als : list Alien.t) (g : t) :
  bullets (breach_loop r als g) = bullets g.
Proof.
  induction als as [|a als IH]; simpl; [reflexivity|].
  destruct (breaches r a); [|exact IH].
  destruct (lives g - 1 <=? 0); reflexivity.
Qed.

Lemma breach_loop_score (r : Rect.t) (als : list Alien.t) (g : t) :
  score (breach_loop r als g) = score g.
Proof.
  induction als as [|a als IH]; simpl; [reflexivity|].
  destruct (breaches r a); [|exact IH].
  destruct (lives g - 1 <=? 0); reflexivity.
Qed.

(** The loop acts only when some alien breaches, and then exactly once. *)
Lemma breach_loop_none (r : Rect.t) (als : list Alien.t) (g : t) :
  existsb (breaches r) als = false -> breach_loop r als g = g.
Proof.
  induction als as [|a als IH]; simpl; [reflexivity|].
  destruct (breaches r a); simpl; [discriminate|exact IH].
Qed.

Lemma breach_loop_some (r : Rect.t) (als : list Alien.t) (g : t) :
  existsb (breaches r) als = true ->
  breach_loop r als g =
    if lives g - 1 <=? 0
    then set_game_over true (set_lives (lives g - 1) g)
    else create_alien_formation (set_lives (lives g - 1) g).
Proof.
  induction als as [|a als IH]; simpl; [discriminate|].
  destruct (breaches r a); simpl; [reflexivity|exact IH].
Qed.

(** The first loop of [update_aliens] moves every alien and ors the edge
    tests of the moved aliens into the flag. *)
Lemma move_aliens_spec (als : list Alien.t) (hit_edge : bool) :
  move_aliens als hit_edge =
    (map Alien.move als, hit_edge || existsb Alien.at_edge (map Alien.move als)).
Proof.
  revert hit_edge. induction als as [|a als IH]; intros hit_edge; simpl.
  - now rewrite orb_false_r.
  - rewrite IH. destruct (Alien.at_edge (Alien.move a)), hit_edge; reflexivity.
Qed.

Lemma update_aliens_spec (g : t) :
  update_aliens g =
    set_aliens
      (if existsb Alien.at_edge (map Alien.move (wave g))
       then map Alien.drop_down (map Alien.move (wave g))
       else map Alien.move (wave g)) g.
Proof.
  unfold update_aliens, wave.
  destruct (aliens g) as [|a als] eqn:E.
  - unfold create_alien_formation at 1 2.
    change (aliens (set_aliens alien_formation g)) with alien_formation.
    rewrite move_aliens_spec, orb_false_l.
    destruct (existsb Alien.at_edge (map Alien.move alien_formation)); reflexivity.
  - rewrite E, move_aliens_spec, orb_false_l.
    destruct (existsb Alien.at_edge (map Alien.move (a :: als))); reflexivity.
Qed.

Lemma update_aliens_player (g : t) : player (update_aliens g) = player g.
Proof. rewrite update_aliens_spec. reflexivity. Qed.

Lemma check_collisions_player (g : t) : player (check_collisions g) = player g.
Proof.
  unfold check_collisions.
  destruct (collide_bullets (bullets g) (aliens g) (score g)) as [[bs als] sc].
  reflexivity.
Qed.

(** ** The player stays on the playfield *)

Lemma player_ok_start :
  player_ok (Player.init (SCREEN_WIDTH / 2 - 25) (SCREEN_HEIGHT - 80)).
Proof.
  unfold player_ok; simpl.
  split; [reflexivity|]. split; [reflexivity|].
  split; [exists 75; reflexivity|]. vm_compute. split; discriminate.
Qed.

Lemma move_left_ok (p : Player.t) : player_ok p -> player_ok (Player.move_left p).
Proof.
  intros H. pose proof H as (Hw & Hs & [k Hk] & Hx). unfold Player.move_left.
  destruct (Z.gtb_spec (Player.x p) 0) as [Hpos|Hle]; [|exact H].
  unfold player_ok, Player.set_x, SCREEN_WIDTH in *.
  cbn [Player.x Player.width Player.speed].
  split; [exact Hw|]. split; [exact Hs|]. split; [exists (k - 1)|]; lia.
Qed.

Lemma move_right_ok (p : Player.t) : player_ok p -> player_ok (Player.move_right p).
Proof.
  intros H. pose proof H as (Hw & Hs & [k Hk] & Hx). unfold Player.move_right.
  destruct (Z.ltb_spec (Player.x p) (SCREEN_WIDTH - Player.width p)) as [Hlt|Hge];
    [|exact H].
  unfold player_ok, Player.set_x, SCREEN_WIDTH in *.
  cbn [Player.x Player.width Player.speed].
  split; [exact Hw|]. split; [exact Hs|]. split; [exists (k + 1)|]; lia.
Qed.

Lemma handle_input_ok (keys : Pressed) (g : t) :
  player_ok (player g) -> player_ok (player (handle_input keys g)).
Proof.
  intros H. unfold handle_input.
  destruct (negb (game_over g)); [|exact H].
  destruct (keys K_LEFT || keys K_a); destruct (keys K_RIGHT || keys K_d); simpl;
    auto using move_left_ok, move_right_ok.
Qed.

Lemma handle_events_ok (evs : list Event) (g : t) :
  player_ok (player g) -> player_ok (player (snd (handle_events evs g))).
Proof.
  revert g. induction evs as [|e evs IH]; intros g H; simpl; [exact H|].
  destruct e as [|key|]; simpl; [exact H| |apply IH; exact H].
  destruct (Key_eqb key K_SPACE && negb (game_over g)); [apply IH; exact H|].
  destruct (Key_eqb key K_r && game_over g); apply IH; [|exact H].
  apply player_ok_start.
Qed.

Lemma run_iteration_ok (evs : list Event) (keys : Pressed) (g : t) :
  player_ok (player g) -> player_ok (player (snd (run_iteration evs keys g))).
Proof.
  intros H. unfold run_iteration.
  pose proof (handle_events_ok evs g H) as H1.
  destruct (handle_events evs g) as [running g1]; simpl in *.
  destruct (negb (game_over g1)); simpl; [|exact H1].
  unfold check_alien_collision_with_player.
  rewrite breach_loop_player, check_collisions_player, update_aliens_player.
  simpl. apply handle_input_ok, H1.
Qed.

Lemma run_ok (frames : list (list Event * Pressed)) (g : t) :
  player_ok (player g) -> player_ok (player (run frames g)).
Proof.
  revert g. induction frames as [|[evs keys] frames IH]; intros g H; simpl; [exact H|].
  pose proof (run_iteration_ok evs keys g H) as H1.
  destruct (run_iteration evs keys g) as [running g1]; simpl in *.
  destruct running; [apply IH|]; exact H1.
Qed.

(** C2 (the code at the failing inputs): [move_left] tests the position
    before the move, not the position it would reach.  A player at [x = 3]
    is moved to [x = -2], left of the playfield, and a player at [x = 748] is
    moved by [move_right] to [x = 753], past [SCREEN_WIDTH - width = 750]. *)
Theorem move_guard_tests_old_position :
  Player.x (Player.move_left (Player.init 3 520)) = -2 /\
  Player.x (Player.move_right (Player.init 748 520)) = 753 /\
  SCREEN_WIDTH - Player.width (Player.init 748 520) = 750.
Proof. repeat split. Qed.

(** C3: from the initial game (player at [x = SCREEN_WIDTH // 2 - 25] with
    speed 5), whatever events and held keys the frames bring, the player's
    [x] stays within [0, SCREEN_WIDTH - width]. *)
Theorem player_x_clamped (frames : list (list Event * Pressed)) :
  0 <= Player.x (player (run frames init))
    <= SCREEN_WIDTH - Player.width (player (run frames init)).
Proof.
  destruct (run_ok frames init player_ok_start) as (_ & _ & _ & H). exact H.
Qed.

(** ** Bullets: pruning happens one update after leaving the screen *)

Lemma update_bullets_spec (g : t) :
  update_bullets g = set_bullets (prune_move (bullets g)) g.
Proof. reflexivity. Qed.

Lemma update_bullets_iter (n : nat) (g : t) :
  bullets (Nat.iter n update_bullets g) = Nat.iter n prune_move (bullets g).
Proof.
  induction n as [|n IH]; [reflexivity|].
  rewrite !Nat.iter_succ, update_bullets_spec. cbn [bullets set_bullets].
  now rewrite IH.
Qed.

(** Bullets do not interact: the update acts on each one separately. *)
Lemma prune_move_app (l1 l2 : list Bullet.t) :
  prune_move (l1 ++ l2) = prune_move l1 ++ prune_move l2.
Proof. unfold prune_move. now rewrite filter_app, map_app. Qed.

Lemma prune_move_iter_app (n : nat) (l1 l2 : list Bullet.t) :
  Nat.iter n prune_move (l1 ++ l2) = Nat.iter n prune_move l1 ++ Nat.iter n prune_move l2.
Proof.
  induction n as [|n IH]; [reflexivity|].
  now rewrite !Nat.iter_succ, IH, prune_move_app.
Qed.

Lemma prune_move_iter_nil (n : nat) : Nat.iter n prune_move [] = [].
Proof. induction n as [|n IH]; [|rewrite Nat.iter_succ, IH]; reflexivity. Qed.

(** The life of one bullet created at height [y0]: it is kept, [7] higher
    each time, through update number [y0 / 7 + 1], and dropped by the next. *)
Lemma prune_move_iter_one (x0 y0 : Z) (n : nat) :
  0 <= y0 ->
  Nat.iter n prune_move [Bullet.init x0 y0] =
    if Z.of_nat n <=? y0 / BULLET_SPEED + 1
    then [Bullet.set_y (y0 - BULLET_SPEED * Z.of_nat n) (Bullet.init x0 y0)]
    else [].
Proof.
  intros Hy. unfold BULLET_SPEED.
  induction n as [|n IH].
  - change (Nat.iter 0 prune_move [Bullet.init x0 y0]) with [Bullet.init x0 y0].
    destruct (Z.leb_spec (Z.of_nat 0) (y0 / 7 + 1)) as [_|H].
    + unfold Bullet.set_y, Bullet.init; cbn [Bullet.x Bullet.y Bullet.width Bullet.height Bullet.speed].
      do 2 f_equal. lia.
    + pose proof (Z.div_pos y0 7 Hy ltac:(lia)). lia.
  - rewrite Nat.iter_succ, IH. clear IH.
    pose proof (Z.div_mod y0 7 ltac:(lia)) as Hdm.
    pose proof (Z.mod_pos_bound y0 7 ltac:(lia)) as Hm.
    destruct (Z.leb_spec (Z.of_nat n) (y0 / 7 + 1)) as [Hn|Hn];
      destruct (Z.leb_spec (Z.of_nat (S n)) (y0 / 7 + 1)) as [HS|HS]; try lia.
    + unfold prune_move, Bullet.is_off_screen, Bullet.set_y, Bullet.init, BULLET_SPEED.
      cbn [filter Bullet.x Bullet.y Bullet.width Bullet.height Bullet.speed].
      destruct (Z.ltb_spec (y0 - 7 * Z.of_nat n) 0) as [Hlt|Hge]; [lia|].
      cbn [negb map]. unfold Bullet.move, Bullet.set_y.
      cbn [Bullet.x Bullet.y Bullet.width Bullet.height Bullet.speed].
      do 2 f_equal. lia.
    + unfold prune_move, Bullet.is_off_screen, Bullet.set_y, Bullet.init, BULLET_SPEED.
      cbn [filter Bullet.x Bullet.y Bullet.width Bullet.height Bullet.speed].
      destruct (Z.ltb_spec (y0 - 7 * Z.of_nat n) 0) as [Hlt|Hge]; [reflexivity|lia].
    + reflexivity.
Qed.

(** C1 (as stated, refuted on a run of the game): the player is moved to the
    left wall for 75 frames, fires in frame 76 from height 520, and 74 idle
    frames follow.  The bullet has then gone through [ceil(520/7) = 75]
    updates without hitting anything (the score is still 0), and the state
    that is drawn still holds it, at [y = -5]. *)
Lemma bullet_drawn_above_screen :
  let frames :=
    repeat ([], hold_left) 75 ++ [([KEYDOWN K_SPACE], hold_nothing)]
      ++ repeat ([], hold_nothing) 74 in
  (520 + BULLET_SPEED - 1) / BULLET_SPEED = 75 /\
  bullets (run frames init) = [Bullet.set_y (-5) (Bullet.init 23 520)] /\
  score (run frames init) = 0 /\
  bullets (run (frames ++ [([], hold_nothing)]) init) = [].
Proof. vm_compute. repeat split. Qed.

(** C1 (amended): a bullet created at height [y0 >= 0], among any other
    bullets, is still in the collection after each of the first
    [y0 // 7 + 1] updates, at [y0 - 7 * n] after the [n]-th, and is removed by
    update number [y0 // 7 + 2]: one update after the first in which its [y]
    went below 0.  While it is in the collection its [y] is at least [-7]. *)
Theorem bullet_pruned_one_update_late (g : t) (pre post : list Bullet.t)
    (x0 y0 : Z) (n : nat) :
  0 <= y0 ->
  bullets g = pre ++ Bullet.init x0 y0 :: post ->
  bullets (Nat.iter n update_bullets g) =
    bullets (Nat.iter n update_bullets (set_bullets pre g))
    ++ (if Z.of_nat n <=? y0 / BULLET_SPEED + 1
        then [Bullet.set_y (y0 - BULLET_SPEED * Z.of_nat n) (Bullet.init x0 y0)]
        else [])
    ++ bullets (Nat.iter n update_bullets (set_bullets post g))
  /\ (Z.of_nat n <= y0 / BULLET_SPEED + 1 -> - BULLET_SPEED <= y0 - BULLET_SPEED * Z.of_nat n).
Proof.
  intros Hy Hb. split.
  - rewrite !update_bullets_iter, Hb. cbn [bullets set_bullets].
    change (Bullet.init x0 y0 :: post) with ([Bullet.init x0 y0] ++ post).
    rewrite !prune_move_iter_app, prune_move_iter_one by exact Hy. reflexivity.
  - unfold BULLET_SPEED. intros Hn.
    pose proof (Z.div_mod y0 7 ltac:(lia)). pose proof (Z.mod_pos_bound y0 7 ltac:(lia)).
    lia.
Qed.

Lemma bullet_pruned_one_update_late_witness :
  bullets (Nat.iter 75 update_bullets (set_bullets [Bullet.init 398 520] init))
    = [Bullet.set_y (-5) (Bullet.init 398 520)]
  /\ bullets (Nat.iter 76 update_bullets (set_bullets [Bullet.init 398 520] init)) = [].
Proof.
  split.
  - exact (proj1 (bullet_pruned_one_update_late
                    (set_bullets [Bullet.init 398 520] init) [] [] 398 520 75
                    ltac:(lia) eq_refl)).
  - exact (proj1 (bullet_pruned_one_update_late
                    (set_bullets [Bullet.init 398 520] init) [] [] 398 520 76
                    ltac:(lia) eq_refl)).
Defined.

(** ** The formation *)

Lemma alien_formation_length : length alien_formation = 50%nat.
Proof. reflexivity. Qed.

Lemma alien_formation_moved : map Alien.move alien_formation = advanced_formation.
Proof. reflexivity. Qed.

Lemma alien_formation_no_edge :
  existsb Alien.at_edge (map Alien.move alien_formation) = false.
Proof. reflexivity. Qed.

Lemma alien_formation_direction :
  Forall (fun a => Alien.direction a = 1) alien_formation.
Proof.
  apply Forall_forall. intros a Ha. unfold alien_formation in Ha.
  apply in_flat_map in Ha as (row & _ & Ha).
  apply in_map_iff in Ha as (col & <- & _). reflexivity.
Qed.

Lemma uniform_formation : uniform_direction alien_formation.
Proof. exists 1. split; [now left|apply alien_formation_direction]. Qed.

Lemma uniform_move (als : list Alien.t) :
  uniform_direction als -> uniform_direction (map Alien.move als).
Proof.
  intros (d & Hd & H). exists d. split; [exact Hd|].
  apply Forall_map. exact H.
Qed.

Lemma uniform_drop_down (als : list Alien.t) :
  uniform_direction als -> uniform_direction (map Alien.drop_down als).
Proof.
  intros (d & Hd & H). exists (- d). split; [lia|].
  apply Forall_map. revert H. apply Forall_impl.
  intros a Ha. unfold Alien.drop_down. cbn [Alien.direction]. lia.
Qed.

Lemma uniform_wave (g : t) : uniform_direction (aliens g) -> uniform_direction (wave g).
Proof.
  unfold wave. destruct (aliens g); intros H; [apply uniform_formation|exact H].
Qed.

Lemma update_aliens_uniform (g : t) :
  uniform_direction (aliens g) -> uniform_direction (aliens (update_aliens g)).
Proof.
  intros H. rewrite update_aliens_spec. cbn [aliens set_aliens].
  apply uniform_wave, uniform_move in H.
  destruct (existsb Alien.at_edge (map Alien.move (wave g)));
    [apply uniform_drop_down|]; exact H.
Qed.

(** Removing aliens keeps the rest as they were. *)
Lemma hit_alien_Forall (P : Alien.t -> Prop) (b : Bullet.t) (als als' : list Alien.t) :
  hit_alien b als = Some als' -> Forall P als -> Forall P als'.
Proof.
  revert als'. induction als as [|a als IH]; intros als' Hh HP; simpl in Hh; [discriminate|].
  inversion HP as [|? ? Ha Hals]; subst.
  destruct (Rect.colliderect (Bullet.get_rect b) (Alien.get_rect a)).
  - injection Hh as <-. exact Hals.
  - destruct (hit_alien b als) as [rest'|]; [|discriminate].
    injection Hh as <-. constructor; [exact Ha|]. now apply IH.
Qed.

Lemma collide_bullets_Forall (P : Alien.t -> Prop) (bs : list Bullet.t)
    (als : list Alien.t) (sc : Z) :
  Forall P als -> Forall P (snd (fst (collide_bullets bs als sc))).
Proof.
  revert als sc. induction bs as [|b bs IH]; intros als sc HP; simpl; [exact HP|].
  destruct (hit_alien b als) as [als'|] eqn:Hh.
  - apply IH. eapply hit_alien_Forall; eauto.
  - specialize (IH als sc HP).
    destruct (collide_bullets bs als sc) as [[kept als''] sc']. exact IH.
Qed.

Lemma check_collisions_uniform (g : t) :
  uniform_direction (aliens g) -> uniform_direction (aliens (check_collisions g)).
Proof.
  intros (d & Hd & H). exists d. split; [exact Hd|].
  unfold check_collisions.
  pose proof (collide_bullets_Forall _ (bullets g) (aliens g) (score g) H) as H'.
  destruct (collide_bullets (bullets g) (aliens g) (score g)) as [[bs als] sc].
  exact H'.
Qed.

Lemma breach_loop_uniform (r : Rect.t) (als : list Alien.t) (g : t) :
  uniform_direction (aliens g) -> uniform_direction (aliens (breach_loop r als g)).
Proof.
  intros H. destruct (existsb (breaches r) als) eqn:E.
  - rewrite breach_loop_some by exact E.
    destruct (lives g - 1 <=? 0); [exact H|apply uniform_formation].
  - rewrite breach_loop_none by exact E. exact H.
Qed.

Lemma handle_events_uniform (evs : list Event) (g : t) :
  uniform_direction (aliens g) ->
  uniform_direction (aliens (snd (handle_events evs g))).
Proof.
  revert g. induction evs as [|e evs IH]; intros g H; simpl; [exact H|].
  destruct e as [|key|]; simpl; [exact H| |apply IH; exact H].
  destruct (Key_eqb key K_SPACE && negb (game_over g)); [apply IH; exact H|].
  destruct (Key_eqb key K_r && game_over g); apply IH; [|exact H].
  apply uniform_formation.
Qed.

Lemma handle_input_aliens (keys : Pressed) (g : t) :
  aliens (handle_input keys g) = aliens g.
Proof.
  unfold handle_input. destruct (negb (game_over g)); [|reflexivity].
  destruct (keys K_LEFT || keys K_a); destruct (keys K_RIGHT || keys K_d); reflexivity.
Qed.

Lemma run_iteration_uniform (evs : list Event) (keys : Pressed) (g : t) :
  uniform_direction (aliens g) ->
  uniform_direction (aliens (snd (run_iteration evs keys g))).
Proof.
  intros H. unfold run_iteration.
  pose proof (handle_events_uniform evs g H) as H1.
  destruct (handle_events evs g) as [running g1]; simpl in *.
  destruct (negb (game_over g1)); simpl; [|exact H1].
  unfold check_alien_collision_with_player.
  apply breach_loop_uniform, check_collisions_uniform, update_aliens_uniform.
  unfold update_bullets. cbn [aliens set_bullets].
  rewrite handle_input_aliens. exact H1.
Qed.

Lemma run_uniform (frames : list (list Event * Pressed)) (g : t) :
  uniform_direction (aliens g) -> uniform_direction (aliens (run frames g)).
Proof.
  revert g. induction frames as [|[evs keys] frames IH]; intros g H; simpl; [exact H|].
  pose proof (run_iteration_uniform evs keys g H) as H1.
  destruct (run_iteration evs keys g) as [running g1]; simpl in *.
  destruct running; [apply IH|]; exact H1.
Qed.

Lemma Forall2_map_r {A B : Type} (R : A -> B -> Prop) (f : A -> B) (l : list A) :
  (forall a, R a (f a)) -> Forall2 R l (map f l).
Proof. intros H. induction l; simpl; constructor; auto. Qed.

(** C4 (as stated, refuted): the update that regenerates an empty collection
    also moves the new aliens in the same call, so the collection it leaves
    is not the canonical grid: its first alien is at [x = 51], not 50. *)
Lemma regenerated_wave_already_moved :
  aliens (update_aliens (set_aliens [] init)) <> alien_formation /\
  map Alien.x (firstn 1 (aliens (update_aliens (set_aliens [] init)))) = [51] /\
  map Alien.x (firstn 1 alien_formation) = [50].
Proof. split; [discriminate|split; reflexivity]. Qed.

(** C4 (amended): when the enemy collection is empty at the start of
    [update_aliens], the collection after that update has exactly 50 members,
    5 rows by 10 columns, at [x = col*60 + 51], [y = row*50 + 50] (the
    canonical grid advanced by one step to the right), all with direction
    [+1]. *)
Theorem empty_wave_regenerated (g : t) :
  aliens g = [] ->
  aliens (update_aliens g) = advanced_formation /\
  length (aliens (update_aliens g)) = 50%nat /\
  Forall (fun a => Alien.direction a = 1) (aliens (update_aliens g)).
Proof.
  intros H. rewrite update_aliens_spec. cbn [aliens set_aliens].
  unfold wave. rewrite H, alien_formation_no_edge, alien_formation_moved.
  split; [reflexivity|]. split; [reflexivity|].
  rewrite <- alien_formation_moved. apply Forall_map.
  exact alien_formation_direction.
Qed.

Lemma empty_wave_regenerated_witness :
  aliens (update_aliens (set_aliens [] init)) = advanced_formation.
Proof. exact (proj1 (empty_wave_regenerated (set_aliens [] init) eq_refl)). Defined.

(** The formation within [update_aliens]: in every state that a run of the
    game draws, all aliens share one
    direction, +1 or -1, and each step of the frame that touches the aliens
    keeps that; the edge test of [update_aliens] is taken over the whole
    moved collection before anything drops: when some moved alien is at an
    edge, every alien has moved, dropped by 20 and reversed, and otherwise
    every alien has only moved. *)
Theorem formation_synchrony :
  (forall frames, uniform_direction (aliens (run frames init))) /\
  (forall g, uniform_direction (aliens g) ->
             uniform_direction (aliens (update_aliens g)) /\
             uniform_direction (aliens (check_collisions g)) /\
             uniform_direction (aliens (check_alien_collision_with_player g))) /\
  (forall g,
     existsb Alien.at_edge (map Alien.move (wave g)) = true ->
     aliens (update_aliens g) = map Alien.drop_down (map Alien.move (wave g)) /\
     Forall2 moved_and_dropped (wave g) (aliens (update_aliens g))) /\
  (forall g,
     existsb Alien.at_edge (map Alien.move (wave g)) = false ->
     aliens (update_aliens g) = map Alien.move (wave g) /\
     Forall2 moved_only (wave g) (aliens (update_aliens g))).
Proof.
  split; [intros frames; apply run_uniform, uniform_formation|].
  split.
  { intros g H. split; [now apply update_aliens_uniform|].
    split; [now apply check_collisions_uniform|].
    unfold check_alien_collision_with_player. now apply breach_loop_uniform. }
  split; intros g E; rewrite update_aliens_spec, E; cbn [aliens set_aliens];
    (split; [reflexivity|]).
  - rewrite map_map. apply Forall2_map_r. intros a.
    unfold moved_and_dropped, Alien.drop_down, Alien.move.
    cbn [Alien.x Alien.y Alien.direction]. repeat split; lia.
  - apply Forall2_map_r. intros a.
    unfold moved_only, Alien.move.
    cbn [Alien.x Alien.y Alien.direction]. repeat split; lia.
Qed.

Lemma formation_synchrony_witness :
  aliens (update_aliens (set_aliens [Alien.init 759 50; Alien.init 100 100] init))
  = [Alien.mk 760 70 40 30 1 (-1); Alien.mk 101 120 40 30 1 (-1)].
Proof.
  exact (proj1 (proj1 (proj2 (proj2 formation_synchrony))
                  (set_aliens [Alien.init 759 50; Alien.init 100 100] init) eq_refl)).
Defined.

(** ** Bullets against aliens *)

Lemma hit_alien_none (b : Bullet.t) (als : list Alien.t) :
  existsb (overlaps b) als = false -> hit_alien b als = None.
Proof.
  induction als as [|a als IH]; simpl; [reflexivity|].
  fold (overlaps b a). destruct (overlaps b a); simpl; [discriminate|].
  intros H. now rewrite IH.
Qed.

(** The inner loop removes the first overlapped alien and no other. *)
Lemma hit_alien_first (b : Bullet.t) (als : list Alien.t) :
  existsb (overlaps b) als = true ->
  exists l1 a l2,
    als = l1 ++ a :: l2 /\ existsb (overlaps b) l1 = false /\
    overlaps b a = true /\ hit_alien b als = Some (l1 ++ l2).
Proof.
  induction als as [|a als IH]; simpl; [discriminate|].
  fold (overlaps b a). destruct (overlaps b a) eqn:E; simpl.
  - intros _. exists [], a, als. repeat split. exact E.
  - intros H. destruct (IH H) as (l1 & a' & l2 & -> & Hl1 & Ha' & Hh).
    exists (a :: l1), a', l2. rewrite Hh. simpl. rewrite E, Hl1. repeat split. exact Ha'.
Qed.

Lemma filter_overlaps_exists (b : Bullet.t) (als : list Alien.t) :
  (1 <= length (filter (overlaps b) als))%nat -> existsb (overlaps b) als = true.
Proof.
  induction als as [|a als IH]; simpl; [lia|].
  destruct (overlaps b a); simpl; [reflexivity|exact IH].
Qed.

Lemma filter_none (b : Bullet.t) (als : list Alien.t) :
  existsb (overlaps b) als = false -> filter (overlaps b) als = [].
Proof.
  induction als as [|a als IH]; simpl; [reflexivity|].
  destruct (overlaps b a); simpl; [discriminate|exact IH].
Qed.

(** Bullets that overlap no alien are passed over and kept. *)
Lemma collide_bullets_miss (pre bs : list Bullet.t) (als : list Alien.t) (sc : Z) :
  Forall (fun b => existsb (overlaps b) als = false) pre ->
  collide_bullets (pre ++ bs) als sc =
    let '(kept, als', sc') := collide_bullets bs als sc in (pre ++ kept, als', sc').
Proof.
  induction 1 as [|b pre Hb Hpre IH]; simpl.
  - destruct (collide_bullets bs als sc) as [[kept als'] sc']. reflexivity.
  - rewrite (hit_alien_none b als Hb), IH.
    destruct (collide_bullets bs als sc) as [[kept als'] sc']. reflexivity.
Qed.

Lemma hit_alien_length (b : Bullet.t) (als als' : list Alien.t) :
  hit_alien b als = Some als' -> length als = S (length als').
Proof.
  revert als'. induction als as [|a als IH]; intros als' H; simpl in H; [discriminate|].
  destruct (Rect.colliderect (Bullet.get_rect b) (Alien.get_rect a)).
  - injection H as <-. reflexivity.
  - destruct (hit_alien b als) as [rest'|]; [|discriminate].
    injection H as <-. simpl. f_equal. now apply IH.
Qed.

Lemma collide_bullets_count (bs : list Bullet.t) (als : list Alien.t) (sc : Z) :
  let '(kept, als', sc') := collide_bullets bs als sc in
  (length kept <= length bs)%nat /\
  length als = (length als' + (length bs - length kept))%nat /\
  sc' = sc + 10 * Z.of_nat (length bs - length kept).
Proof.
  revert als sc. induction bs as [|b bs IH]; intros als sc; cbn [collide_bullets].
  - cbn [length]. repeat split; lia.
  - destruct (hit_alien b als) as [als1|] eqn:Hh.
    + specialize (IH als1 (sc + 10)). apply hit_alien_length in Hh.
      destruct (collide_bullets bs als1 (sc + 10)) as [[kept als'] sc'].
      destruct IH as (Hk & Ha & Hs). cbn [length]. repeat split; lia.
    + specialize (IH als sc).
      destruct (collide_bullets bs als sc) as [[kept als'] sc'].
      destruct IH as (Hk & Ha & Hs). cbn [length]. repeat split; lia.
Qed.

Lemma check_collisions_count (g : t) :
  one_kill_per_removed_bullet g (check_collisions g).
Proof.
  unfold one_kill_per_removed_bullet, check_collisions.
  pose proof (collide_bullets_count (bullets g) (aliens g) (score g)) as H.
  destruct (collide_bullets (bullets g) (aliens g) (score g)) as [[bs als] sc].
  exact H.
Qed.

(** The outer loop over a collection in two parts: the second part starts
    from the aliens and the score that the first part left. *)
Lemma collide_bullets_app (pre bs : list Bullet.t) (als : list Alien.t) (sc : Z) :
  collide_bullets (pre ++ bs) als sc =
    let '(kept1, als1, sc1) := collide_bullets pre als sc in
    let '(kept2, als2, sc2) := collide_bullets bs als1 sc1 in
    (kept1 ++ kept2, als2, sc2).
Proof.
  revert als sc. induction pre as [|b pre IH]; intros als sc; cbn [app collide_bullets].
  - destruct (collide_bullets bs als sc) as [[kept2 als2] sc2]. reflexivity.
  - destruct (hit_alien b als) as [als'|]; rewrite IH; [reflexivity|].
    destruct (collide_bullets pre als sc) as [[kept1 als1] sc1].
    destruct (collide_bullets bs als1 sc1) as [[kept2 als2] sc2]. reflexivity.
Qed.

(** C5: take a bullet [b] anywhere in the collection, and let [live] and
    [sc] be the aliens and the score left by the bullets before it when its
    turn comes.  If [b] overlaps two or more of the live aliens, the step
    removes exactly one of them, the first overlapped one in collection
    order, removes [b], adds exactly 10 to the score, and goes on with the
    bullets after [b]; the other aliens that [b] overlaps stay.  Counted over
    the whole step, every removed bullet stands for exactly one removed alien
    and exactly 10 points. *)
Theorem single_kill_per_shot (g : t) (pre post kept : list Bullet.t)
    (b : Bullet.t) (live : list Alien.t) (sc : Z) :
  bullets g = pre ++ b :: post ->
  collide_bullets pre (aliens g) (score g) = (kept, live, sc) ->
  (2 <= length (filter (overlaps b) live))%nat ->
  (exists l1 a l2,
     live = l1 ++ a :: l2 /\
     existsb (overlaps b) l1 = false /\ overlaps b a = true /\
     (1 <= length (filter (overlaps b) (l1 ++ l2)))%nat /\
     let g' := check_collisions
                 (set_score (sc + 10) (set_aliens (l1 ++ l2) (set_bullets post g))) in
     check_collisions g = set_bullets (kept ++ bullets g') g') /\
  one_kill_per_removed_bullet g (check_collisions g).
Proof.
  intros Hb Hpre Hcount. split; [|apply check_collisions_count].
  destruct (hit_alien_first b live) as (l1 & a & l2 & Hals & Hl1 & Ha & Hh).
  { apply filter_overlaps_exists. lia. }
  exists l1, a, l2. split; [exact Hals|]. split; [exact Hl1|]. split; [exact Ha|].
  split.
  - rewrite Hals in Hcount. rewrite filter_app in Hcount |- *.
    rewrite (filter_none b l1 Hl1) in Hcount |- *. simpl in Hcount |- *.
    rewrite Ha in Hcount. simpl in Hcount. lia.
  - unfold check_collisions. cbn [bullets aliens score set_score set_aliens set_bullets].
    rewrite Hb, collide_bullets_app, Hpre.
    cbn [collide_bullets]. rewrite Hh.
    destruct (collide_bullets post (l1 ++ l2) (sc + 10)) as [[kept' als'] sc'].
    reflexivity.
Qed.

Lemma single_kill_per_shot_witness :
  let g := mk (Player.init 375 520) [Bullet.init 100 100]
              [Alien.init 90 90; Alien.init 95 95; Alien.init 300 300] 0 3 false in
  check_collisions g =
    mk (Player.init 375 520) [] [Alien.init 95 95; Alien.init 300 300] 10 3 false
  /\ one_kill_per_removed_bullet g (check_collisions g).
Proof.
  split; [reflexivity|].
  exact (proj2 (single_kill_per_shot
                  (mk (Player.init 375 520) [Bullet.init 100 100]
                      [Alien.init 90 90; Alien.init 95 95; Alien.init 300 300] 0 3 false)
                  [] [] [] (Bullet.init 100 100)
                  [Alien.init 90 90; Alien.init 95 95; Alien.init 300 300] 0
                  eq_refl eq_refl (le_n 2))).
Defined.

(** ** Lives, game over and restart *)

Lemma check_alien_collision_spec (g : t) :
  check_alien_collision_with_player g =
    if breached g then
      if lives g - 1 <=? 0
      then set_game_over true (set_lives (lives g - 1) g)
      else create_alien_formation (set_lives (lives g - 1) g)
    else g.
Proof.
  unfold check_alien_collision_with_player, breached.
  destruct (existsb _ (aliens g)) eqn:E.
  - now apply breach_loop_some.
  - now apply breach_loop_none.
Qed.

Lemma check_alien_collision_lives (g : t) :
  lives g - 1 <= lives (check_alien_collision_with_player g) <= lives g.
Proof.
  rewrite check_alien_collision_spec.
  destruct (breached g); [|lia].
  destruct (lives g - 1 <=? 0); cbn [lives set_lives set_game_over create_alien_formation set_aliens]; lia.
Qed.

Lemma restart_game_init (g : t) : restart_game g = init.
Proof. reflexivity. Qed.

(** While playing, the event queue can only add bullets. *)
Lemma handle_events_playing (evs : list Event) (g : t) :
  game_over g = false ->
  exists fired,
    snd (handle_events evs g) = set_bullets (bullets g ++ fired) g.
Proof.
  revert g. induction evs as [|e evs IH]; intros g Hg; cbn [handle_events].
  - exists []. rewrite app_nil_r. now destruct g.
  - destruct e as [|key|].
    + exists []. rewrite app_nil_r. now destruct g.
    + rewrite Hg, andb_false_r. cbn [negb]. rewrite andb_true_r.
      destruct (Key_eqb key K_SPACE).
      * destruct (IH (fire g) Hg) as [fired ->].
        exists (fired_bullet g :: fired). unfold fire, fired_bullet.
        cbn [bullets set_bullets player aliens score lives game_over].
        now rewrite <- app_assoc.
      * apply IH, Hg.
    + apply IH, Hg.
Qed.

(** After game over, a queue without the restart key changes nothing. *)
Lemma handle_events_over (evs : list Event) (g : t) :
  game_over g = true -> ~ In (KEYDOWN K_r) evs -> snd (handle_events evs g) = g.
Proof.
  intros Hg. induction evs as [|e evs IH]; intros Hr; cbn [handle_events]; [reflexivity|].
  assert (Hr' : ~ In (KEYDOWN K_r) evs) by (intros H; apply Hr; now right).
  destruct e as [|key|]; [reflexivity| |exact (IH Hr')].
  rewrite Hg, andb_false_r, andb_true_r.
  destruct key; cbn [Key_eqb]; try exact (IH Hr').
  exfalso. apply Hr. now left.
Qed.

Lemma run_iteration_over (evs : list Event) (keys : Pressed) (g : t) :
  game_over g = true -> ~ In (KEYDOWN K_r) evs -> snd (run_iteration evs keys g) = g.
Proof.
  intros Hg Hr. unfold run_iteration.
  pose proof (handle_events_over evs g Hg Hr) as H.
  destruct (handle_events evs g) as [running g1]. cbn [snd] in *. subst g1.
  now rewrite Hg.
Qed.

Lemma run_over (frames : list (list Event * Pressed)) (g : t) :
  game_over g = true ->
  Forall (fun frame => ~ In (KEYDOWN K_r) (fst frame)) frames ->
  run frames g = g.
Proof.
  intros Hg. induction 1 as [|[evs keys] frames Hr _ IH]; cbn [run]; [reflexivity|].
  pose proof (run_iteration_over evs keys g Hg Hr) as H.
  destruct (run_iteration evs keys g) as [running g1]. cbn [snd] in H. subst g1.
  destruct running; [exact IH|reflexivity].
Qed.

Lemma update_aliens_lives (g : t) : lives (update_aliens g) = lives g.
Proof. rewrite update_aliens_spec. reflexivity. Qed.

Lemma check_collisions_lives (g : t) : lives (check_collisions g) = lives g.
Proof.
  unfold check_collisions.
  destruct (collide_bullets (bullets g) (aliens g) (score g)) as [[bs als] sc].
  reflexivity.
Qed.

Lemma handle_input_lives (keys : Pressed) (g : t) :
  lives (handle_input keys g) = lives g.
Proof.
  unfold handle_input. destruct (negb (game_over g)); [|reflexivity].
  destruct (keys K_LEFT || keys K_a); destruct (keys K_RIGHT || keys K_d); reflexivity.
Qed.

Lemma run_iteration_lives (evs : list Event) (keys : Pressed) (g : t) :
  game_over g = false ->
  lives g - 1 <= lives (snd (run_iteration evs keys g)) <= lives g.
Proof.
  intros Hg. unfold run_iteration.
  destruct (handle_events_playing evs g Hg) as [fired H].
  destruct (handle_events evs g) as [running g1]. cbn [snd] in *. subst g1.
  cbn [game_over set_bullets]. rewrite Hg. cbn [negb].
  match goal with |- _ <= lives (check_alien_collision_with_player ?h) <= _ =>
    pose proof (check_alien_collision_lives h) as Hl;
    rewrite check_collisions_lives, update_aliens_lives in Hl end.
  unfold update_bullets in Hl. cbn [lives set_bullets] in Hl.
  rewrite handle_input_lives in Hl. exact Hl.
Qed.

(** C7: with one life left, a frame's breach test that finds a breaching
    alien (however many breach) sets lives to 0 and game over and changes
    nothing else; the breach test, and a whole frame while playing, costs at
    most one life; and after game over a frame whose queue holds no restart
    key leaves the game exactly as it was, whatever keys are held, for any
    number of frames. *)
Theorem last_life_breach_ends_game :
  (forall g, lives g = 1 -> breached g = true ->
             check_alien_collision_with_player g = set_game_over true (set_lives 0 g)) /\
  (forall g, lives g - 1 <= lives (check_alien_collision_with_player g) <= lives g) /\
  (forall g evs keys, game_over g = false ->
             lives g - 1 <= lives (snd (run_iteration evs keys g)) <= lives g) /\
  (forall g evs keys, game_over g = true -> ~ In (KEYDOWN K_r) evs ->
             snd (run_iteration evs keys g) = g) /\
  (forall g frames, game_over g = true ->
             Forall (fun frame => ~ In (KEYDOWN K_r) (fst frame)) frames ->
             run frames g = g).
Proof.
  split; [|split; [exact check_alien_collision_lives|
           split; [intros g evs keys; apply run_iteration_lives|
           split; [intros g evs keys; apply run_iteration_over|
                   intros g frames; apply run_over]]]].
  intros g Hl Hb. rewrite check_alien_collision_spec, Hb, Hl. reflexivity.
Qed.

(** C9: when the breach test finds a breach and more than one life is left,
    it takes one life and replaces the aliens by a fresh formation; the
    player, the bullets, the score and the game-over flag stay as they
    were. *)
Theorem breach_resets_only_formation (g : t) :
  breached g = true -> 1 < lives g ->
  check_alien_collision_with_player g =
    set_aliens alien_formation (set_lives (lives g - 1) g) /\
  player (check_alien_collision_with_player g) = player g /\
  bullets (check_alien_collision_with_player g) = bullets g.
Proof.
  intros Hb Hl. rewrite check_alien_collision_spec, Hb.
  destruct (Z.leb_spec (lives g - 1) 0) as [H|H]; [lia|].
  repeat split.
Qed.

(** C8: a restart key in the queue of a playing game is skipped, the game is
    handed unchanged to the rest of the queue; in a game that is over it
    replaces the game by the initial one: score 0, three lives, no bullets,
    the 50 aliens of the formation, the player at its start position, and
    playing. *)
Theorem restart_only_when_over (g : t) (evs : list Event) :
  (game_over g = false ->
     handle_events (KEYDOWN K_r :: evs) g = handle_events evs g /\
     handle_events [KEYDOWN K_r] g = (true, g)) /\
  (game_over g = true ->
     handle_events (KEYDOWN K_r :: evs) g = handle_events evs init /\
     handle_events [KEYDOWN K_r] g = (true, init)) /\
  (score init = 0 /\ lives init = 3 /\ bullets init = [] /\
   aliens init = alien_formation /\ length (aliens init) = 50%nat /\
   player init = Player.init (SCREEN_WIDTH / 2 - 25) (SCREEN_HEIGHT - 80) /\
   game_over init = false).
Proof.
  split; [|split; [|repeat split]]; intros Hg; cbn [handle_events Key_eqb];
    rewrite Hg; cbn [andb negb]; split; reflexivity.
Qed.

(** ** Firing *)

Lemma handle_events_fire (n : nat) (g : t) :
  game_over g = false ->
  handle_events (repeat (KEYDOWN K_SPACE) n) g =
    (true, set_bullets (bullets g ++ repeat (fired_bullet g) n) g).
Proof.
  revert g. induction n as [|n IH]; intros g Hg; cbn [repeat handle_events].
  - rewrite app_nil_r. now destruct g.
  - cbn [Key_eqb]. rewrite Hg. cbn [andb negb].
    rewrite IH by exact Hg. unfold fire. fold (fired_bullet g).
    cbn [bullets set_bullets player aliens score lives game_over].
    unfold fired_bullet at 2. cbn [player set_bullets]. fold (fired_bullet g).
    now rewrite <- app_assoc.
Qed.

Lemma collide_bullets_repeat_miss (b : Bullet.t) (als : list Alien.t) (sc : Z) (n : nat) :
  existsb (overlaps b) als = false ->
  collide_bullets (repeat b n) als sc = (repeat b n, als, sc).
Proof.
  intros H. induction n as [|n IH]; cbn [repeat collide_bullets]; [reflexivity|].
  now rewrite (hit_alien_none b als H), IH.
Qed.

Lemma prune_move_repeat (b : Bullet.t) (n : nat) :
  Bullet.is_off_screen b = false ->
  prune_move (repeat b n) = repeat (Bullet.move b) n.
Proof.
  intros H. unfold prune_move.
  induction n as [|n IH]; cbn [repeat filter map]; [reflexivity|].
  rewrite H. cbn [negb map]. now rewrite IH.
Qed.

Lemma handle_input_nothing (g : t) : handle_input hold_nothing g = g.
Proof. unfold handle_input. now destruct (negb (game_over g)). Qed.

(** Bullets fired in the first frame are moved once and are far below the
    formation, so all of them are drawn. *)
Lemma first_frame_bullets (n : nat) :
  bullets
    (check_alien_collision_with_player
       (check_collisions
          (update_aliens
             (update_bullets
                (handle_input hold_nothing
                   (set_bullets (bullets init ++ repeat (fired_bullet init) n) init))))))
  = repeat (Bullet.init 398 513) n.
Proof.
  unfold check_alien_collision_with_player. rewrite breach_loop_bullets.
  rewrite handle_input_nothing, update_bullets_spec.
  cbn [bullets set_bullets]. change (bullets init) with (@nil Bullet.t). cbn [app].
  rewrite prune_move_repeat by reflexivity.
  unfold check_collisions. rewrite update_aliens_spec.
  cbn [bullets aliens score set_aliens set_bullets].
  change (wave _) with alien_formation.
  rewrite alien_formation_no_edge.
  rewrite collide_bullets_repeat_miss by (vm_compute; reflexivity).
  reflexivity.
Qed.

(** C10: while the game is not over, a fire command appends exactly one
    bullet to the collection: the bullet of width 5, height 10 and speed 7
    with [x = player.x + player.width // 2 - 2] and [y = player.y]; it is the
    last of the collection, which is one longer, and the game is handed to
    the rest of the queue; [n] fire commands in one queue append [n] such
    bullets; and the number of bullets has no bound: a first frame with [n]
    fire commands is drawn with [n] bullets, at [x = 398], [y = 513]. *)
Theorem fire_appends_one_bullet (g : t) (evs : list Event) (n : nat) :
  let shot := Bullet.mk (Player.x (player g) + Player.width (player g) / 2 - 2)
                        (Player.y (player g)) 5 10 7 in
  (game_over g = false ->
     handle_events (KEYDOWN K_SPACE :: evs) g =
       handle_events evs (set_bullets (bullets g ++ [shot]) g) /\
     handle_events (repeat (KEYDOWN K_SPACE) n) g =
       (true, set_bullets (bullets g ++ repeat shot n) g) /\
     length (bullets (snd (handle_events [KEYDOWN K_SPACE] g))) = S (length (bullets g)) /\
     Bullet.x (last (bullets (snd (handle_events [KEYDOWN K_SPACE] g))) (Bullet.init 0 0))
       = Player.x (player g) + Player.width (player g) / 2 - 2 /\
     Bullet.y (last (bullets (snd (handle_events [KEYDOWN K_SPACE] g))) (Bullet.init 0 0))
       = Player.y (player g)) /\
  bullets (run [(repeat (KEYDOWN K_SPACE) n, hold_nothing)] init)
    = repeat (Bullet.mk 398 513 5 10 7) n /\
  length (bullets (run [(repeat (KEYDOWN K_SPACE) n, hold_nothing)] init)) = n.
Proof.
  intros shot.
  assert (Hrun : bullets (run [(repeat (KEYDOWN K_SPACE) n, hold_nothing)] init)
                 = repeat (Bullet.mk 398 513 5 10 7) n).
  { cbn [run]. unfold run_iteration.
    rewrite handle_events_fire by reflexivity.
    cbn [game_over set_bullets init create_alien_formation set_aliens negb].
    rewrite first_frame_bullets. reflexivity. }
  split; [|split; [exact Hrun|rewrite Hrun; apply repeat_length]].
  intros Hg.
  assert (Hone : handle_events [KEYDOWN K_SPACE] g
                 = (true, set_bullets (bullets g ++ [shot]) g)).
  { cbn [handle_events Key_eqb]. rewrite Hg. reflexivity. }
  split; [|split; [|rewrite Hone; cbn [snd bullets set_bullets]; split; [|split]]].
  - cbn [handle_events Key_eqb]. rewrite Hg. reflexivity.
  - rewrite (handle_events_fire n g Hg). reflexivity.
  - rewrite length_app. cbn [length]. lia.
  - rewrite last_last. reflexivity.
  - rewrite last_last. reflexivity.
Qed.

Lemma last_life_breach_ends_game_witness :
  check_alien_collision_with_player
    (mk (Player.init 375 520) [] [Alien.init 100 500; Alien.init 380 510] 40 1 false)
  = mk (Player.init 375 520) [] [Alien.init 100 500; Alien.init 380 510] 40 0 true
  /\ snd (run_iteration [KEYDOWN K_SPACE; OTHER_EVENT] hold_left
            (mk (Player.init 375 520) [] [Alien.init 100 500; Alien.init 380 510] 40 0 true))
  = mk (Player.init 375 520) [] [Alien.init 100 500; Alien.init 380 510] 40 0 true.
Proof.
  split.
  - exact (proj1 last_life_breach_ends_game
             (mk (Player.init 375 520) [] [Alien.init 100 500; Alien.init 380 510] 40 1 false)
             eq_refl eq_refl).
  - apply (proj1 (proj2 (proj2 (proj2 last_life_breach_ends_game)))); [reflexivity|].
    intros [H|[H|[]]]; discriminate H.
Defined.

Lemma breach_resets_only_formation_witness :
  check_alien_collision_with_player
    (mk (Player.init 200 520) [Bullet.init 223 300] [Alien.init 100 500] 40 3 false)
  = mk (Player.init 200 520) [Bullet.init 223 300] alien_formation 40 2 false.
Proof.
  exact (proj1 (breach_resets_only_formation
                  (mk (Player.init 200 520) [Bullet.init 223 300] [Alien.init 100 500] 40 3 false)
                  eq_refl eq_refl)).
Defined.

Lemma restart_only_when_over_witness :
  handle_events [KEYDOWN K_r] (set_score 70 init) = (true, set_score 70 init) /\
  handle_events [KEYDOWN K_r]
    (mk (Player.init 200 520) [Bullet.init 223 300] [Alien.init 100 500] 40 0 true)
  = (true, init).
Proof.
  split.
  - exact (proj2 (proj1 (restart_only_when_over (set_score 70 init) []) eq_refl)).
  - exact (proj2 (proj1 (proj2 (restart_only_when_over
             (mk (Player.init 200 520) [Bullet.init 223 300] [Alien.init 100 500] 40 0 true)
             [])) eq_refl)).
Defined.

Lemma fire_appends_one_bullet_witness :
  handle_events (repeat (KEYDOWN K_SPACE) 3) init
  = (true, set_bullets [Bullet.mk 398 520 5 10 7; Bullet.mk 398 520 5 10 7;
                        Bullet.mk 398 520 5 10 7] init)
  /\ Bullet.x (last (bullets (snd (handle_events [KEYDOWN K_SPACE] init))) (Bullet.init 0 0))
     = 375 + 50 / 2 - 2
  /\ Bullet.y (last (bullets (snd (handle_events [KEYDOWN K_SPACE] init))) (Bullet.init 0 0))
     = 520.
Proof.
  pose proof (proj1 (fire_appends_one_bullet init [] 3) eq_refl) as (_ & H & _ & Hx & Hy).
  split; [exact H|]. split; [exact Hx|exact Hy].
Defined.

(** * Further properties of the code *)

(** ** The player *)

Lemma iter_move_left_ok (n : nat) (p : Player.t) :
  player_ok p -> player_ok (Nat.iter n Player.move_left p).
Proof.
  intros H. induction n as [|n IH]; [exact H|].
  rewrite Nat.iter_succ. now apply move_left_ok.
Qed.

Lemma iter_move_right_ok (n : nat) (p : Player.t) :
  player_ok p -> player_ok (Nat.iter n Player.move_right p).
Proof.
  intros H. induction n as [|n IH]; [exact H|].
  rewrite Nat.iter_succ. now apply move_right_ok.
Qed.

Lemma move_left_x (p : Player.t) :
  player_ok p -> Player.x (Player.move_left p) = Z.max 0 (Player.x p - 5).
Proof.
  intros (Hw & Hs & [k Hk] & Hx). unfold Player.move_left.
  destruct (Z.gtb_spec (Player.x p) 0) as [Hpos|Hle]; [|lia].
  unfold Player.set_x. cbn [Player.x]. rewrite Hs. lia.
Qed.

Lemma move_right_x (p : Player.t) :
  player_ok p ->
  Player.x (Player.move_right p) = Z.min (SCREEN_WIDTH - 50) (Player.x p + 5).
Proof.
  intros (Hw & Hs & [k Hk] & Hx). unfold Player.move_right. rewrite Hw in *.
  unfold SCREEN_WIDTH in *.
  destruct (Z.ltb_spec (Player.x p) (800 - 50)) as [Hlt|Hge]; [|lia].
  unfold Player.set_x. cbn [Player.x]. rewrite Hs. lia.
Qed.

(** X1: from a position that is a multiple of the speed inside the
    playfield, [n] moves to the left bring the player to
    [max 0 (x - 5 n)] and [n] moves to the right to [min 750 (x + 5 n)]: the
    player stops exactly at the walls. *)
Theorem repeated_moves_clamp (p : Player.t) (n : nat) :
  player_ok p ->
  Player.x (Nat.iter n Player.move_left p) = Z.max 0 (Player.x p - 5 * Z.of_nat n) /\
  Player.x (Nat.iter n Player.move_right p)
    = Z.min (SCREEN_WIDTH - 50) (Player.x p + 5 * Z.of_nat n).
Proof.
  intros H. pose proof H as (Hw & _ & _ & Hx). rewrite Hw in Hx.
  unfold SCREEN_WIDTH in *. split.
  - induction n as [|n IH]; [cbn [Nat.iter nat_rect]; lia|].
    rewrite Nat.iter_succ, move_left_x by now apply iter_move_left_ok.
    rewrite IH. lia.
  - induction n as [|n IH]; [cbn [Nat.iter nat_rect]; lia|].
    rewrite Nat.iter_succ, move_right_x by now apply iter_move_right_ok.
    rewrite IH. unfold SCREEN_WIDTH. lia.
Qed.

Lemma repeated_moves_clamp_witness :
  Player.x (Nat.iter 100 Player.move_left (Player.init 375 520)) = 0 /\
  Player.x (Nat.iter 100 Player.move_right (Player.init 375 520)) = 750.
Proof.
  exact (repeated_moves_clamp (Player.init 375 520) 100 player_ok_start).
Defined.

(** X2: with a left key and a right key held in the same frame the player
    first moves left and then right: it stays where it is, except at the
    left wall, where the left move does nothing and the right move takes it
    to [x = 5]. *)
Theorem both_directions_held (keys : Pressed) (g : t) :
  player_ok (player g) -> game_over g = false ->
  keys K_LEFT || keys K_a = true -> keys K_RIGHT || keys K_d = true ->
  player (handle_input keys g) = Player.move_right (Player.move_left (player g)) /\
  Player.x (player (handle_input keys g)) =
    if Player.x (player g) =? 0 then 5 else Player.x (player g).
Proof.
  intros H Hg Hl Hr. unfold handle_input.
  rewrite Hg, Hl, Hr. cbn [negb player set_player]. split; [reflexivity|].
  rewrite move_right_x by now apply move_left_ok.
  rewrite move_left_x by exact H.
  destruct H as (Hw & _ & [k Hk] & Hx). rewrite Hw in Hx. unfold SCREEN_WIDTH in *.
  destruct (Z.eqb_spec (Player.x (player g)) 0); lia.
Qed.

Lemma both_directions_held_witness :
  Player.x (player (handle_input (fun _ => true) (set_player (Player.init 0 520) init))) = 5 /\
  Player.x (player (handle_input (fun _ => true) init)) = 375.
Proof.
  split.
  - refine (proj2 (both_directions_held (fun _ => true)
                     (set_player (Player.init 0 520) init) _ eq_refl eq_refl eq_refl)).
    split; [reflexivity|]. split; [reflexivity|].
    split; [exists 0; reflexivity|]. vm_compute. split; discriminate.
  - exact (proj2 (both_directions_held (fun _ => true) init
                    player_ok_start eq_refl eq_refl eq_refl)).
Defined.

(** ** The event queue *)

(** While playing, a queue is read up to its first [QUIT] and only its fire
    commands count. *)
Lemma handle_events_playing_fires (evs : list Event) (g : t) :
  game_over g = false ->
  handle_events evs g =
    (negb (existsb is_quit evs),
     set_bullets (bullets g ++ repeat (fired_bullet g) (fires evs)) g).
Proof.
  revert g. induction evs as [|e evs IH]; intros g Hg; cbn [handle_events fires existsb].
  - cbn [repeat negb]. rewrite app_nil_r. now destruct g.
  - destruct e as [|key|]; cbn [is_quit orb].
    + cbn [repeat negb]. rewrite app_nil_r. now destruct g.
    + rewrite Hg, andb_false_r. cbn [negb]. rewrite andb_true_r.
      destruct key; cbn [Key_eqb]; try exact (IH g Hg).
      rewrite (IH (fire g) Hg). f_equal.
      unfold fire. fold (fired_bullet g). unfold fired_bullet at 2.
      cbn [bullets set_bullets player aliens score lives game_over repeat].
      fold (fired_bullet g). rewrite <- app_assoc. reflexivity.
    + exact (IH g Hg).
Qed.

(** After game over, a queue either changes nothing or restarts, and then
    goes on as in a fresh game. *)
Lemma handle_events_over_shape (evs : list Event) (g : t) :
  game_over g = true ->
  snd (handle_events evs g) = g \/
  exists k, snd (handle_events evs g) = set_bullets (repeat (fired_bullet init) k) init.
Proof.
  intros Hg. induction evs as [|e evs IH]; cbn [handle_events]; [now left|].
  destruct e as [|key|]; [now left| |exact IH].
  rewrite Hg, andb_false_r, andb_true_r.
  destruct key; cbn [Key_eqb]; try exact IH.
  right. exists (fires evs). rewrite restart_game_init.
  rewrite handle_events_playing_fires by reflexivity. reflexivity.
Qed.

Lemma run_iteration_eq (evs : list Event) (keys : Pressed) (g : t) :
  run_iteration evs keys g =
    (fst (handle_events evs g),
     if game_over (snd (handle_events evs g))
     then snd (handle_events evs g)
     else simulate keys (snd (handle_events evs g))).
Proof.
  unfold run_iteration, simulate.
  destruct (handle_events evs g) as [running g1]. cbn [fst snd].
  destruct (game_over g1); reflexivity.
Qed.

(** ** Invariants of the frame loop

    [Drawn] is to hold of every state that is drawn, [Ready] of the state
    between the event queue and the simulation steps. *)

Section FrameInvariant.

Variables Drawn Ready : t -> Prop.

Hypothesis ready_fired : forall g k,
  Drawn g -> game_over g = false ->
  Ready (set_bullets (bullets g ++ repeat (fired_bullet g) k) g).
Hypothesis ready_restarted : forall k,
  Ready (set_bullets (repeat (fired_bullet init) k) init).
Hypothesis drawn_simulated : forall keys g,
  Ready g -> game_over g = false -> Drawn (simulate keys g).

Lemma run_iteration_invariant (evs : list Event) (keys : Pressed) (g : t) :
  Drawn g -> Drawn (snd (run_iteration evs keys g)).
Proof.
  intros H. rewrite run_iteration_eq. cbn [snd].
  destruct (game_over g) eqn:Hg.
  - destruct (handle_events_over_shape evs g Hg) as [->|[k ->]].
    + now rewrite Hg.
    + cbn [game_over set_bullets init create_alien_formation set_aliens].
      apply drawn_simulated; [apply ready_restarted|reflexivity].
  - rewrite handle_events_playing_fires by exact Hg. cbn [snd game_over set_bullets].
    rewrite Hg. apply drawn_simulated; [now apply ready_fired|exact Hg].
Qed.

Lemma run_invariant (frames : list (list Event * Pressed)) (g : t) :
  Drawn g -> Drawn (run frames g).
Proof.
  revert g. induction frames as [|[evs keys] frames IH]; intros g H; cbn [run]; [exact H|].
  pose proof (run_iteration_invariant evs keys g H) as H1.
  destruct (run_iteration evs keys g) as [running g1]. cbn [snd] in H1.
  destruct running; [apply IH|]; exact H1.
Qed.

End FrameInvariant.

(** What the simulation steps do to each field. *)

Lemma check_collisions_eq (g : t) :
  check_collisions g =
    mk (player g)
       (fst (fst (collide_bullets (bullets g) (aliens g) (score g))))
       (snd (fst (collide_bullets (bullets g) (aliens g) (score g))))
       (snd (collide_bullets (bullets g) (aliens g) (score g)))
       (lives g) (game_over g).
Proof.
  unfold check_collisions.
  destruct (collide_bullets (bullets g) (aliens g) (score g)) as [[bs als] sc].
  reflexivity.
Qed.

Lemma handle_input_eq (keys : Pressed) (g : t) :
  handle_input keys g = set_player (player (handle_input keys g)) g.
Proof.
  unfold handle_input. destruct (negb (game_over g)); [|now destruct g].
  destruct (keys K_LEFT || keys K_a); destruct (keys K_RIGHT || keys K_d);
    cbn [player set_player]; try reflexivity. now destruct g.
Qed.

Lemma simulate_player (keys : Pressed) (g : t) :
  player (simulate keys g) = player (handle_input keys g).
Proof.
  unfold simulate, check_alien_collision_with_player.
  now rewrite breach_loop_player, check_collisions_player, update_aliens_player.
Qed.

Lemma simulate_score (keys : Pressed) (g : t) :
  exists n : nat, score (simulate keys g) = score g + 10 * Z.of_nat n.
Proof.
  unfold simulate, check_alien_collision_with_player. rewrite breach_loop_score.
  match goal with |- context [check_collisions ?h] =>
    destruct (check_collisions_count h) as (_ & _ & Hs);
    exists (length (bullets h) - length (bullets (check_collisions h)))%nat;
    rewrite Hs end.
  rewrite update_aliens_spec, handle_input_eq. reflexivity.
Qed.

Lemma simulate_lives (keys : Pressed) (g : t) :
  (lives (simulate keys g) = lives g /\ game_over (simulate keys g) = game_over g) \/
  (1 < lives g /\ lives (simulate keys g) = lives g - 1 /\
   game_over (simulate keys g) = game_over g) \/
  (lives g <= 1 /\ lives (simulate keys g) = lives g - 1 /\
   game_over (simulate keys g) = true).
Proof.
  unfold simulate. rewrite check_alien_collision_spec.
  match goal with |- context [breached ?h] =>
    assert (Hl : lives h = lives g)
      by (rewrite check_collisions_eq, update_aliens_spec, handle_input_eq; reflexivity);
    assert (Ho : game_over h = game_over g)
      by (rewrite check_collisions_eq, update_aliens_spec, handle_input_eq; reflexivity);
    destruct (breached h) end; [|left; now split].
  rewrite Hl. destruct (Z.leb_spec (lives g - 1) 0) as [H|H]; right; [right|left];
    cbn [lives game_over set_lives set_game_over create_alien_formation set_aliens];
    rewrite ?Ho; repeat split; lia.
Qed.

Lemma move_left_placed (p : Player.t) :
  player_placed p -> player_placed (Player.move_left p).
Proof.
  intros H. unfold Player.move_left. destruct (Player.x p >? 0); exact H.
Qed.

Lemma move_right_placed (p : Player.t) :
  player_placed p -> player_placed (Player.move_right p).
Proof.
  intros H. unfold Player.move_right.
  destruct (Player.x p <? SCREEN_WIDTH - Player.width p); exact H.
Qed.

Lemma handle_input_placed (keys : Pressed) (g : t) :
  player_placed (player g) -> player_placed (player (handle_input keys g)).
Proof.
  intros H. unfold handle_input.
  destruct (negb (game_over g)); [|exact H].
  destruct (keys K_LEFT || keys K_a); destruct (keys K_RIGHT || keys K_d);
    cbn [player set_player]; auto using move_left_placed, move_right_placed.
Qed.

Lemma player_row_placed_along_runs (frames : list (list Event * Pressed)) :
  player_placed (player (run frames init)).
Proof.
  apply (run_invariant (fun g => player_placed (player g))
                       (fun g => player_placed (player g))).
  - intros g k H _. exact H.
  - intros k. repeat split.
  - intros keys g H _. rewrite simulate_player. now apply handle_input_placed.
  - repeat split.
Qed.

(** X3: in every state that a run of the game draws, the player is on the
    line [y = SCREEN_HEIGHT - 80 = 520] with width 50, height 40 and speed 5:
    nothing in the frame loop moves the player vertically or resizes it. *)
Theorem player_row_fixed (frames : list (list Event * Pressed)) :
  player_placed (player (run frames init)).
Proof. exact (player_row_placed_along_runs frames). Qed.

(** X4: in every state that a run of the game draws, either the game is on
    with one, two or three lives, or it is over with exactly zero lives;
    lives are never negative and never above three. *)
Theorem lives_match_game_over (frames : list (list Event * Pressed)) :
  lives_ok (run frames init).
Proof.
  apply (run_invariant lives_ok lives_ok).
  - intros g k H _. exact H.
  - intros k. left. split; [reflexivity|]. cbn. lia.
  - intros keys g [[Hg Hl]|[Hg Hl]] Hplay; [|congruence].
    unfold lives_ok.
    destruct (simulate_lives keys g) as [[-> ->]|[(H1 & -> & ->)|(H1 & -> & ->)]].
    + left. split; [exact Hg|lia].
    + left. split; [exact Hg|lia].
    + right. split; [reflexivity|lia].
  - left. split; [reflexivity|]. cbn. lia.
Qed.

(** X5: in every state that a run of the game draws, the score is a
    non-negative multiple of 10. *)
Theorem score_counts_tens (frames : list (list Event * Pressed)) :
  score_ok (run frames init).
Proof.
  apply (run_invariant score_ok score_ok).
  - intros g k H _. exact H.
  - intros k. exists 0. split; [lia|reflexivity].
  - intros keys g (k & Hk & Hs) _.
    destruct (simulate_score keys g) as [n Hn].
    exists (k + Z.of_nat n). split; [lia|]. rewrite Hn, Hs. lia.
  - exists 0. split; [lia|reflexivity].
Qed.

(** X6: a frame of a game that is on never lowers the score: whatever the
    queue and the held keys, the score after the frame is the score before
    plus a multiple of 10. *)
Theorem score_never_drops_in_play (evs : list Event) (keys : Pressed) (g : t) :
  game_over g = false ->
  exists n : nat,
    score (snd (run_iteration evs keys g)) = score g + 10 * Z.of_nat n /\
    score g <= score (snd (run_iteration evs keys g)).
Proof.
  intros Hg. rewrite run_iteration_eq. cbn [snd].
  rewrite handle_events_playing_fires by exact Hg. cbn [snd game_over set_bullets].
  rewrite Hg.
  match goal with |- context [simulate keys ?h] =>
    destruct (simulate_score keys h) as [n Hn] end.
  exists n. rewrite Hn. cbn [score set_bullets]. split; lia.
Qed.

Lemma score_never_drops_in_play_witness :
  exists n : nat,
    score (snd (run_iteration [KEYDOWN K_SPACE] hold_left
                  (mk (Player.init 100 520) [Bullet.init 100 107]
                      [Alien.init 90 90; Alien.init 300 300] 30 3 false)))
    = 30 + 10 * Z.of_nat n /\
    30 <= score (snd (run_iteration [KEYDOWN K_SPACE] hold_left
                  (mk (Player.init 100 520) [Bullet.init 100 107]
                      [Alien.init 90 90; Alien.init 300 300] 30 3 false))).
Proof.
  exact (score_never_drops_in_play [KEYDOWN K_SPACE] hold_left
           (mk (Player.init 100 520) [Bullet.init 100 107]
               [Alien.init 90 90; Alien.init 300 300] 30 3 false) eq_refl).
Defined.

(** ** The bullets of the drawn states *)

Lemma collide_bullets_kept_Forall (P : Bullet.t -> Prop) (bs : list Bullet.t)
    (als : list Alien.t) (sc : Z) :
  Forall P bs -> Forall P (fst (fst (collide_bullets bs als sc))).
Proof.
  revert als sc. induction bs as [|b bs IH]; intros als sc H; cbn [collide_bullets].
  - constructor.
  - inversion H as [|? ? Hb Hbs]; subst.
    destruct (hit_alien b als) as [als'|]; [now apply IH|].
    specialize (IH als sc Hbs).
    destruct (collide_bullets bs als sc) as [[kept als''] sc']. cbn [fst] in *.
    now constructor.
Qed.

Lemma collide_bullets_kept_sorted (R : Bullet.t -> Bullet.t -> Prop)
    (bs : list Bullet.t) (als : list Alien.t) (sc : Z) :
  StronglySorted R bs -> StronglySorted R (fst (fst (collide_bullets bs als sc))).
Proof.
  revert als sc. induction bs as [|b bs IH]; intros als sc H; cbn [collide_bullets].
  - constructor.
  - apply StronglySorted_inv in H as [Hbs Hb].
    destruct (hit_alien b als) as [als'|]; [now apply IH|].
    specialize (IH als sc Hbs).
    pose proof (collide_bullets_kept_Forall (R b) bs als sc Hb) as Hk.
    destruct (collide_bullets bs als sc) as [[kept als''] sc']. cbn [fst] in *.
    now constructor.
Qed.

Lemma simulate_bullets (keys : Pressed) (g : t) :
  exists als sc,
    bullets (simulate keys g)
    = fst (fst (collide_bullets (prune_move (bullets g)) als sc)).
Proof.
  unfold simulate, check_alien_collision_with_player. rewrite breach_loop_bullets.
  rewrite check_collisions_eq. cbn [bullets].
  rewrite update_aliens_spec. cbn [bullets aliens score set_aliens].
  rewrite update_bullets_spec. cbn [bullets aliens score set_bullets].
  rewrite (handle_input_eq keys g). cbn [bullets aliens score set_player].
  eexists _, _. reflexivity.
Qed.

Lemma prune_move_within (bs : list Bullet.t) :
  Forall (bullet_within 520) bs -> Forall (bullet_within 513) (prune_move bs).
Proof.
  unfold prune_move. induction 1 as [|b bs Hb _ IH]; cbn [filter map]; [constructor|].
  unfold Bullet.is_off_screen.
  destruct (Z.ltb_spec (Bullet.y b) 0) as [Hlt|Hge]; cbn [negb map]; [exact IH|].
  constructor; [|exact IH].
  destruct Hb as (Hw & Hh & Hs & Hx & Hy).
  unfold bullet_within, Bullet.move, Bullet.set_y, BULLET_SPEED in *.
  cbn [Bullet.x Bullet.y Bullet.width Bullet.height Bullet.speed].
  rewrite Hs. repeat split; lia.
Qed.

Lemma prune_move_sorted (top : Z) (bs : list Bullet.t) :
  Forall (bullet_within top) bs -> highest_first bs -> highest_first (prune_move bs).
Proof.
  unfold prune_move, highest_first.
  induction 1 as [|b bs Hb Hbs IH]; intros Hs; cbn [filter map]; [constructor|].
  apply StronglySorted_inv in Hs as [Hs Hle].
  destruct (negb (Bullet.is_off_screen b)); cbn [map]; [|now apply IH].
  constructor; [now apply IH|].
  apply Forall_map, Forall_forall. intros b' Hb'.
  apply filter_In in Hb' as [Hb' _].
  rewrite Forall_forall in Hle, Hbs.
  specialize (Hle b' Hb'). destruct (Hbs b' Hb') as (_ & _ & Hs' & _).
  destruct Hb as (_ & _ & Hsb & _).
  unfold Bullet.move, Bullet.set_y. cbn [Bullet.y]. rewrite Hs', Hsb. lia.
Qed.

Lemma highest_first_fired (bs : list Bullet.t) (b : Bullet.t) (k : nat) :
  Forall (fun b' => Bullet.y b' <= Bullet.y b) bs ->
  highest_first bs -> highest_first (bs ++ repeat b k).
Proof.
  unfold highest_first. intros Hle Hs.
  induction bs as [|b' bs IH]; cbn [app].
  - induction k as [|k IHk]; cbn [repeat]; constructor; [exact IHk|].
    apply Forall_forall. intros b1 H1. apply repeat_spec in H1. subst b1. lia.
  - apply StronglySorted_inv in Hs as [Hs Hb'].
    inversion Hle as [|? ? Hy Hle']; subst.
    constructor; [now apply IH|].
    apply Forall_app. split; [exact Hb'|].
    apply Forall_forall. intros b1 H1. apply repeat_spec in H1. now subst b1.
Qed.

Lemma fired_bullet_within (g : t) :
  player_ok (player g) -> player_placed (player g) ->
  bullet_within 520 (fired_bullet g) /\ Bullet.y (fired_bullet g) = 520.
Proof.
  intros (Hw & _ & _ & Hx) (Hy & _). rewrite Hw in Hx.
  unfold bullet_within, fired_bullet, Bullet.init, BULLET_SPEED, SCREEN_WIDTH, SCREEN_HEIGHT in *.
  cbn [Bullet.x Bullet.y Bullet.width Bullet.height Bullet.speed].
  rewrite Hw, Hy. change (50 / 2) with 25. repeat split; lia.
Qed.

Lemma bullets_invariant (frames : list (list Event * Pressed)) :
  bullets_ok 513 (run frames init).
Proof.
  apply (run_invariant (bullets_ok 513) (bullets_ok 520)).
  - intros g k (Hp & Hq & Hb & Hs) _.
    destruct (fired_bullet_within g Hp Hq) as [Hf Hfy].
    split; [exact Hp|]. split; [exact Hq|]. cbn [bullets set_bullets]. split.
    + apply Forall_app. split.
      * revert Hb. apply Forall_impl. intros b (? & ? & ? & ? & ?).
        unfold bullet_within. repeat split; lia.
      * apply Forall_forall. intros b Hin. apply repeat_spec in Hin. now subst b.
    + apply highest_first_fired; [|exact Hs].
      revert Hb. apply Forall_impl. intros b (_ & _ & _ & _ & Hy). lia.
  - intros k.
    assert (Hp : player_ok (player init)) by exact player_ok_start.
    assert (Hq : player_placed (player init)) by (repeat split).
    destruct (fired_bullet_within init Hp Hq) as [Hf Hfy].
    split; [exact Hp|]. split; [exact Hq|]. cbn [bullets set_bullets]. split.
    + apply Forall_forall. intros b Hin. apply repeat_spec in Hin. now subst b.
    + change (repeat (fired_bullet init) k) with ([] ++ repeat (fired_bullet init) k).
      apply highest_first_fired; constructor.
  - intros keys g (Hp & Hq & Hb & Hs) _.
    split; [rewrite simulate_player; now apply handle_input_ok|].
    split; [rewrite simulate_player; now apply handle_input_placed|].
    destruct (simulate_bullets keys g) as (als & sc & ->). split.
    + apply collide_bullets_kept_Forall, prune_move_within, Hb.
    + apply collide_bullets_kept_sorted. exact (prune_move_sorted 520 _ Hb Hs).
  - split; [exact player_ok_start|]. split; [repeat split|].
    split; constructor.
Qed.

(** X7: every bullet of every state that a run of the game draws is 5 wide
    and 10 high with speed 7, lies inside the screen horizontally
    ([23 <= x <= 773]) and has [-7 <= y <= 513]: it has been moved at least
    once since it was fired at [y = 520], and it is at most one step above
    the top of the screen. *)
Theorem drawn_bullets_in_range (frames : list (list Event * Pressed)) :
  Forall (bullet_within 513) (bullets (run frames init)).
Proof. exact (proj1 (proj2 (proj2 (bullets_invariant frames)))). Qed.

(** X8: in every state that a run of the game draws, the bullets are listed
    in firing order from the highest on the screen to the lowest: a bullet
    is never above one that is before it in the collection. *)
Theorem drawn_bullets_in_firing_order (frames : list (list Event * Pressed)) :
  highest_first (bullets (run frames init)).
Proof. exact (proj2 (proj2 (proj2 (bullets_invariant frames)))). Qed.

(** ** The aliens of the drawn states *)

Lemma update_aliens_advance (g : t) :
  aliens (update_aliens g) = advance (wave g).
Proof. rewrite update_aliens_spec. reflexivity. Qed.

Lemma wave_not_empty (g : t) : wave g <> [].
Proof. unfold wave. destruct (aliens g); discriminate. Qed.

Lemma simulate_aliens (keys : Pressed) (g : t) :
  aliens (simulate keys g) = alien_formation \/
  exists bs sc,
    aliens (simulate keys g) = snd (fst (collide_bullets bs (advance (wave g)) sc)).
Proof.
  unfold simulate. rewrite check_alien_collision_spec.
  match goal with |- context [breached ?h] => destruct (breached h) end.
  - match goal with |- context [?a <=? 0] => destruct (a <=? 0) end; [|now left].
    right. cbn [aliens set_game_over set_lives].
    rewrite check_collisions_eq. cbn [aliens]. rewrite update_aliens_advance.
    unfold wave. rewrite update_bullets_spec. cbn [aliens set_bullets].
    rewrite handle_input_aliens. eexists _, _. reflexivity.
  - right. rewrite check_collisions_eq. cbn [aliens]. rewrite update_aliens_advance.
    unfold wave. rewrite update_bullets_spec. cbn [aliens set_bullets].
    rewrite handle_input_aliens. eexists _, _. reflexivity.
Qed.

Section AliensInvariant.

Variable P : list Alien.t -> Prop.

Hypothesis P_formation : P alien_formation.
Hypothesis P_advance : forall als, P als -> als <> [] -> P (advance als).
Hypothesis P_removed : forall b als als', hit_alien b als = Some als' -> P als -> P als'.

Lemma collide_bullets_aliens_invariant (bs : list Bullet.t) (als : list Alien.t) (sc : Z) :
  P als -> P (snd (fst (collide_bullets bs als sc))).
Proof.
  revert als sc. induction bs as [|b bs IH]; intros als sc H; cbn [collide_bullets]; [exact H|].
  destruct (hit_alien b als) as [als'|] eqn:Hh.
  - apply IH. exact (P_removed b als als' Hh H).
  - specialize (IH als sc H).
    destruct (collide_bullets bs als sc) as [[kept als''] sc']. exact IH.
Qed.

Lemma simulate_aliens_invariant (keys : Pressed) (g : t) :
  P (aliens g) -> P (aliens (simulate keys g)).
Proof.
  intros H. destruct (simulate_aliens keys g) as [->|(bs & sc & ->)]; [exact P_formation|].
  apply collide_bullets_aliens_invariant, P_advance; [|apply wave_not_empty].
  unfold wave. destruct (aliens g); [exact P_formation|exact H].
Qed.

Lemma run_aliens_invariant (frames : list (list Event * Pressed)) :
  P (aliens (run frames init)).
Proof.
  apply (run_invariant (fun g => P (aliens g)) (fun g => P (aliens g))).
  - intros g k H _. exact H.
  - intros k. exact P_formation.
  - intros keys g H _. now apply simulate_aliens_invariant.
  - exact P_formation.
Qed.

End AliensInvariant.

Lemma existsb_false_Forall {A : Type} (f : A -> bool) (l : list A) :
  existsb f l = false -> Forall (fun a => f a = false) l.
Proof.
  induction l as [|a l IH]; cbn [existsb]; intros H; constructor;
    apply orb_false_iff in H as [Ha Hl]; auto.
Qed.

Lemma alien_formation_band : Forall (alien_in_band 1 50) alien_formation.
Proof.
  apply Forall_forall. intros a Ha. unfold alien_formation in Ha.
  apply in_flat_map in Ha as (row & Hrow & Ha).
  apply in_map_iff in Ha as (col & <- & Hcol).
  apply in_seq in Hrow, Hcol. unfold rows, cols in *.
  unfold alien_in_band, Alien.init.
  cbn [Alien.x Alien.y Alien.width Alien.height Alien.speed Alien.direction].
  repeat split; lia.
Qed.

Lemma aliens_ok_formation : aliens_ok alien_formation.
Proof.
  split; [rewrite alien_formation_length; lia|].
  exists 1, 50. split; [left; lia|exact alien_formation_band].
Qed.

Lemma advance_length (als : list Alien.t) : length (advance als) = length als.
Proof.
  unfold advance. destruct (existsb Alien.at_edge (map Alien.move als));
    now rewrite ?length_map.
Qed.

(** One update of a formation in its band: it drops and turns with the band
    shifted by its last step, or it moves on inside the screen. *)
Lemma aliens_ok_advance (als : list Alien.t) : aliens_ok als -> aliens_ok (advance als).
Proof.
  intros (Hlen & d & lo & Hband & Hals).
  split; [now rewrite advance_length|]. unfold advance.
  destruct (existsb Alien.at_edge (map Alien.move als)) eqn:E.
  - exists (- d), (lo + d). split.
    + unfold band_on_screen in *. lia.
    + rewrite map_map. apply Forall_map. revert Hals. apply Forall_impl.
      intros a (Hd & Hw & Hh & Hs & Hx & Hy).
      unfold alien_in_band, Alien.drop_down, Alien.move, ALIEN_SPEED, ALIEN_DROP_SPEED in *.
      cbn [Alien.x Alien.y Alien.width Alien.height Alien.speed Alien.direction].
      rewrite Hs, Hd. repeat split; lia.
  - apply existsb_false_Forall in E. rewrite Forall_map in E.
    exists d, (if d =? 1 then Z.min (lo + 1) 219 else Z.max (lo - 1) 1). split.
    + unfold band_on_screen in *. destruct (Z.eqb_spec d 1); lia.
    + apply Forall_map. rewrite Forall_forall in *.
      intros a Ha. specialize (E a Ha). destruct (Hals a Ha) as (Hd & Hw & Hh & Hs & Hx & Hy).
      unfold Alien.at_edge in E. apply orb_false_iff in E as [E1 E2].
      apply Z.leb_gt in E1. rewrite Z.geb_leb in E2. apply Z.leb_gt in E2.
      unfold alien_in_band, Alien.move, ALIEN_SPEED, SCREEN_WIDTH, band_on_screen in *.
      cbn [Alien.x Alien.y Alien.width Alien.height Alien.speed Alien.direction] in *.
      rewrite Hs, Hd, Hw in *.
      destruct (Z.eqb_spec d 1); repeat split; lia.
Qed.

Lemma aliens_ok_removed (b : Bullet.t) (als als' : list Alien.t) :
  hit_alien b als = Some als' -> aliens_ok als -> aliens_ok als'.
Proof.
  intros Hh (Hlen & d & lo & Hband & Hals). split.
  - apply hit_alien_length in Hh. lia.
  - exists d, lo. split; [exact Hband|]. exact (hit_alien_Forall _ b als als' Hh Hals).
Qed.

Lemma aliens_ok_along_runs (frames : list (list Event * Pressed)) :
  (length (aliens (run frames init)) <= 50)%nat /\
  Forall alien_on_screen (aliens (run frames init)).
Proof.
  destruct (run_aliens_invariant aliens_ok aliens_ok_formation
              (fun als H _ => aliens_ok_advance als H) aliens_ok_removed frames)
    as (Hlen & d & lo & Hband & Hals).
  split; [exact Hlen|]. revert Hals. apply Forall_impl.
  intros a (Hd & Hw & Hh & Hs & Hx & Hy).
  unfold alien_on_screen, band_on_screen, SCREEN_WIDTH in *. rewrite Hw.
  repeat split; try assumption; lia.
Qed.

(** X9: in every state that a run of the game draws there are at most 50
    aliens, each 40 wide and 30 high with speed 1, and each inside the
    screen horizontally, [0 <= x <= SCREEN_WIDTH - width = 760], at or below
    the first row of the formation ([y >= 50]). *)
Theorem drawn_aliens_on_screen (frames : list (list Event * Pressed)) :
  (length (aliens (run frames init)) <= 50)%nat /\
  Forall alien_on_screen (aliens (run frames init)).
Proof. exact (aliens_ok_along_runs frames). Qed.

Lemma Forall_existsb_false {A : Type} (f : A -> bool) (l : list A) :
  Forall (fun a => f a = false) l -> existsb f l = false.
Proof.
  induction 1 as [|a l Ha _ IH]; cbn [existsb]; [reflexivity|]. now rewrite Ha, IH.
Qed.

Lemma alien_formation_rows :
  Forall (fun a => 50 <= Alien.y a <= 250 /\ Alien.height a = 30 /\ Alien.width a = 40)
         alien_formation.
Proof.
  apply Forall_forall. intros a Ha. unfold alien_formation in Ha.
  apply in_flat_map in Ha as (row & Hrow & Ha).
  apply in_map_iff in Ha as (col & <- & Hcol).
  apply in_seq in Hrow. unfold rows in *.
  unfold Alien.init. cbn [Alien.y Alien.height Alien.width]. repeat split; lia.
Qed.

(** A fresh formation is far above the player's row. *)
Lemma formation_no_breach (p : Player.t) :
  player_placed p -> existsb (breaches (Player.get_rect p)) alien_formation = false.
Proof.
  intros (Hy & Hh & Hw & _). apply Forall_existsb_false.
  generalize alien_formation_rows. apply Forall_impl.
  intros a (Hay & Hah & Haw).
  unfold breaches, Rect.colliderect, Alien.get_rect, Player.get_rect, Rect.make.
  cbn [Rect.x Rect.y Rect.w Rect.h].
  rewrite Hy, Hh, Hw, Hah, Haw. unfold SCREEN_HEIGHT in *.
  change (c_int 40) with 40. change (c_int 30) with 30. change (c_int 50) with 50.
  change (c_int (600 - 80)) with 520. cbn [Z.eqb orb].
  rewrite (c_int_fits (Alien.y a)) by (unfold fits_c_int; lia).
  rewrite (c_int_fits (Alien.y a + 30)) by (unfold fits_c_int; lia).
  change (c_int (520 + 40)) with 560.
  apply orb_false_iff. split.
  - apply andb_false_iff. right. rewrite Z.gtb_ltb. apply Z.ltb_ge. lia.
  - rewrite Z.geb_leb. apply Z.leb_gt. lia.
Qed.

Lemma no_breach_along_runs (frames : list (list Event * Pressed)) :
  game_over (run frames init) = false -> breached (run frames init) = false.
Proof.
  assert (H : player_placed (player (run frames init)) /\
              (game_over (run frames init) = false -> breached (run frames init) = false)).
  { apply (run_invariant
             (fun g => player_placed (player g) /\ (game_over g = false -> breached g = false))
             (fun g => player_placed (player g))).
    - intros g k [H _] _. exact H.
    - intros k. repeat split.
    - intros keys g H _.
      assert (Hp : player_placed (player (simulate keys g)))
        by (rewrite simulate_player; now apply handle_input_placed).
      split; [exact Hp|]. revert Hp. unfold simulate.
      rewrite check_alien_collision_spec.
      match goal with |- context [breached ?h] => destruct (breached h) eqn:Hb end;
        [|intros _ _; exact Hb].
      match goal with |- context [?a <=? 0] => destruct (a <=? 0) end.
      + intros _ Hover. discriminate Hover.
      + intros Hp _. unfold breached.
        cbn [player aliens create_alien_formation set_aliens set_lives] in *.
        now apply formation_no_breach.
    - split; [repeat split|]. intros _. apply formation_no_breach. repeat split. }
  exact (proj2 H).
Qed.

(** X10: a state that a run of the game draws with the game still on holds
    no breaching alien: no alien overlaps the player and none has reached
    the line [y = SCREEN_HEIGHT - 100 = 500].  A breach is always answered
    in the frame in which it happens, by a fresh formation or by game
    over. *)
Theorem no_breach_drawn_in_play (frames : list (list Event * Pressed)) :
  game_over (run frames init) = false -> breached (run frames init) = false.
Proof. exact (no_breach_along_runs frames). Qed.

Lemma no_breach_drawn_in_play_witness :
  breached (run [([KEYDOWN K_SPACE], hold_left); ([], hold_nothing)] init) = false.
Proof.
  exact (no_breach_drawn_in_play
           [([KEYDOWN K_SPACE], hold_left); ([], hold_nothing)] eq_refl).
Defined.

(** X11: [update_aliens] never leaves the collection empty and never changes
    its size, except for an empty collection, which it replaces by the 50
    aliens of a new formation. *)
Theorem update_aliens_keeps_count (g : t) :
  aliens (update_aliens g) <> [] /\
  length (aliens (update_aliens g)) =
    match aliens g with
    | [] => 50%nat
    | _ :: _ => length (aliens g)
    end.
Proof.
  rewrite update_aliens_advance. split.
  - intros H. apply (f_equal (@length _)) in H. rewrite advance_length in H.
    pose proof (wave_not_empty g) as Hw. destruct (wave g); [congruence|discriminate].
  - rewrite advance_length. unfold wave. destruct (aliens g); reflexivity.
Qed.

(** ** What collision resolution leaves behind *)

Lemma hit_alien_none_inv (b : Bullet.t) (als : list Alien.t) :
  hit_alien b als = None -> existsb (overlaps b) als = false.
Proof.
  induction als as [|a als IH]; cbn [hit_alien existsb]; [reflexivity|].
  fold (overlaps b a). destruct (overlaps b a); [discriminate|].
  destruct (hit_alien b als); [discriminate|]. intros _. now apply IH.
Qed.

Lemma subsequence_refl {A : Type} (l : list A) : subsequence l l.
Proof.
  induction l as [|a l IH]; [apply subsequence_nil|now apply subsequence_keep].
Qed.

Lemma hit_alien_subsequence (b : Bullet.t) (als als' : list Alien.t) :
  hit_alien b als = Some als' -> subsequence als' als.
Proof.
  revert als'. induction als as [|a als IH]; intros als' H; cbn [hit_alien] in H; [discriminate|].
  destruct (Rect.colliderect (Bullet.get_rect b) (Alien.get_rect a)).
  - injection H as <-. apply subsequence_skip, subsequence_refl.
  - destruct (hit_alien b als) as [rest'|]; [|discriminate].
    injection H as <-. apply subsequence_keep. now apply IH.
Qed.

Lemma subsequence_trans {A : Type} (l1 l2 l3 : list A) :
  subsequence l1 l2 -> subsequence l2 l3 -> subsequence l1 l3.
Proof.
  intros H12 H23. revert l1 H12.
  induction H23 as [|a l2 l3 _ IH|a l2 l3 _ IH]; intros l1 H12.
  - exact H12.
  - apply subsequence_skip. now apply IH.
  - inversion H12; subst; [apply subsequence_skip|apply subsequence_keep]; now apply IH.
Qed.

Lemma subsequence_existsb_false {A : Type} (f : A -> bool) (l' l : list A) :
  subsequence l' l -> existsb f l = false -> existsb f l' = false.
Proof.
  induction 1 as [|a l' l _ IH|a l' l _ IH]; cbn [existsb]; intros H;
    try reflexivity; apply orb_false_iff in H as [Ha Hl]; rewrite ?Ha; auto.
Qed.

Lemma collide_bullets_subsequence (bs : list Bullet.t) (als : list Alien.t) (sc : Z) :
  subsequence (fst (fst (collide_bullets bs als sc))) bs /\
  subsequence (snd (fst (collide_bullets bs als sc))) als.
Proof.
  revert als sc. induction bs as [|b bs IH]; intros als sc; cbn [collide_bullets].
  - split; [apply subsequence_nil|apply subsequence_refl].
  - destruct (hit_alien b als) as [als'|] eqn:Hh.
    + destruct (IH als' (sc + 10)) as [Hb Ha]. split; [now apply subsequence_skip|].
      eapply subsequence_trans; [exact Ha|]. now apply hit_alien_subsequence in Hh.
    + destruct (IH als sc) as [Hb Ha].
      destruct (collide_bullets bs als sc) as [[kept als''] sc']. cbn [fst snd] in *.
      split; [now apply subsequence_keep|exact Ha].
Qed.

Lemma collide_bullets_settled (bs : list Bullet.t) (als : list Alien.t) (sc : Z) :
  Forall (fun b => existsb (overlaps b) (snd (fst (collide_bullets bs als sc))) = false)
         (fst (fst (collide_bullets bs als sc))).
Proof.
  revert als sc. induction bs as [|b bs IH]; intros als sc; cbn [collide_bullets].
  - constructor.
  - destruct (hit_alien b als) as [als'|] eqn:Hh; [apply IH|].
    specialize (IH als sc).
    pose proof (proj2 (collide_bullets_subsequence bs als sc)) as Hsub.
    destruct (collide_bullets bs als sc) as [[kept als''] sc']. cbn [fst snd] in *.
    constructor; [|exact IH].
    eapply subsequence_existsb_false; [exact Hsub|]. now apply hit_alien_none_inv.
Qed.

Lemma collide_bullets_all_miss (bs : list Bullet.t) (als : list Alien.t) (sc : Z) :
  Forall (fun b => existsb (overlaps b) als = false) bs ->
  collide_bullets bs als sc = (bs, als, sc).
Proof.
  induction 1 as [|b bs Hb _ IH]; cbn [collide_bullets]; [reflexivity|].
  now rewrite (hit_alien_none b als Hb), IH.
Qed.

Lemma subsequence_Forall {A : Type} (P : A -> Prop) (l' l : list A) :
  subsequence l' l -> Forall P l -> Forall P l'.
Proof.
  induction 1 as [|a l' l _ IH|a l' l _ IH]; intros H.
  - constructor.
  - inversion H; subst. now apply IH.
  - inversion H; subst. constructor; [assumption|now apply IH].
Qed.

Lemma check_collisions_fit (g : t) : rects_fit g -> rects_fit (check_collisions g).
Proof.
  intros [Hb Ha]. rewrite check_collisions_eq. unfold rects_fit. cbn [bullets aliens].
  destruct (collide_bullets_subsequence (bullets g) (aliens g) (score g)) as [H1 H2].
  split; eapply subsequence_Forall; eassumption.
Qed.

(** X12: for bullets and aliens at coordinates that [pygame.Rect] holds
    without wrapping, after [check_collisions] no bullet that is left
    overlaps an alien that is left, and what is left is still at such
    coordinates. *)
Theorem collisions_leave_no_overlap (g : t) :
  rects_fit g ->
  settled (check_collisions g) /\ rects_fit (check_collisions g).
Proof.
  intros Hfit. split; [|now apply check_collisions_fit].
  unfold settled. rewrite check_collisions_eq. cbn [bullets aliens].
  apply collide_bullets_settled.
Qed.

Lemma collisions_leave_no_overlap_witness :
  settled (check_collisions
             (mk (Player.init 375 520) [Bullet.init 100 100; Bullet.init 101 101]
                 [Alien.init 90 90; Alien.init 300 300] 0 3 false)).
Proof.
  refine (proj1 (collisions_leave_no_overlap
                   (mk (Player.init 375 520) [Bullet.init 100 100; Bullet.init 101 101]
                       [Alien.init 90 90; Alien.init 300 300] 0 3 false) _)).
  split; repeat constructor; vm_compute; discriminate.
Defined.

(** X13: for bullets and aliens at coordinates that [pygame.Rect] holds
    without wrapping, [check_collisions] changes nothing in a game in which
    no bullet overlaps an alien, so running it a second time right after the
    first changes nothing more. *)
Theorem collisions_settle_at_once (g : t) :
  rects_fit g ->
  (settled g -> check_collisions g = g) /\
  check_collisions (check_collisions g) = check_collisions g.
Proof.
  intros Hfit.
  assert (H : forall h, settled h -> check_collisions h = h).
  { intros h Hs. rewrite check_collisions_eq.
    rewrite (collide_bullets_all_miss _ _ _ Hs). now destruct h. }
  split; [apply H|]. apply H. unfold settled.
  rewrite check_collisions_eq. cbn [bullets aliens]. apply collide_bullets_settled.
Qed.

Lemma collisions_settle_at_once_witness :
  check_collisions (set_bullets [Bullet.init 398 513] init)
  = set_bullets [Bullet.init 398 513] init.
Proof.
  apply (proj1 (collisions_settle_at_once (set_bullets [Bullet.init 398 513] init)
                  ltac:(split; repeat constructor; vm_compute; discriminate))).
  repeat constructor.
Defined.

(** X14: [check_collisions] only removes: the bullets and the aliens it
    leaves are the old ones with some left out, unchanged and in their old
    order, as many aliens left out as bullets; the player, the lives and
    the game-over flag are as before. *)
Theorem collisions_only_remove (g : t) :
  subsequence (bullets (check_collisions g)) (bullets g) /\
  subsequence (aliens (check_collisions g)) (aliens g) /\
  (length (bullets g) - length (bullets (check_collisions g)) =
   length (aliens g) - length (aliens (check_collisions g)))%nat /\
  player (check_collisions g) = player g /\
  lives (check_collisions g) = lives g /\
  game_over (check_collisions g) = game_over g.
Proof.
  destruct (check_collisions_count g) as (Hb & Ha & _).
  rewrite check_collisions_eq in *. cbn [bullets aliens player lives game_over] in *.
  destruct (collide_bullets_subsequence (bullets g) (aliens g) (score g)) as [H1 H2].
  repeat split; try assumption. lia.
Qed.

(** ** Queues and frames *)

Lemma handle_events_app (evs1 evs2 : list Event) (g : t) :
  handle_events (evs1 ++ evs2) g =
    if fst (handle_events evs1 g)
    then handle_events evs2 (snd (handle_events evs1 g))
    else (false, snd (handle_events evs1 g)).
Proof.
  revert g. induction evs1 as [|e evs1 IH]; intros g; cbn [app handle_events fst snd].
  - reflexivity.
  - destruct e as [|key|]; [reflexivity| |apply IH].
    destruct (Key_eqb key K_SPACE && negb (game_over g)); [apply IH|].
    destruct (Key_eqb key K_r && game_over g); apply IH.
Qed.

Lemma handle_events_running (evs : list Event) (g : t) :
  fst (handle_events evs g) = negb (existsb is_quit evs).
Proof.
  revert g. induction evs as [|e evs IH]; intros g; cbn [handle_events existsb]; [reflexivity|].
  destruct e as [|key|]; cbn [is_quit orb]; [reflexivity| |apply IH].
  destruct (Key_eqb key K_SPACE && negb (game_over g)); [apply IH|].
  destruct (Key_eqb key K_r && game_over g); apply IH.
Qed.

(** X15: [handle_events] stops reading at the first [QUIT]: it returns
    [False] exactly when the queue holds a [QUIT], and then the game is the
    one left by the events before it; whatever follows in the queue, fire
    and restart commands included, is dropped. *)
Theorem quit_drops_rest_of_queue (pre post : list Event) (g : t) :
  handle_events (pre ++ QUIT :: post) g = (false, snd (handle_events pre g)) /\
  fst (handle_events pre g) = negb (existsb is_quit pre).
Proof.
  split; [|apply handle_events_running].
  rewrite handle_events_app. destruct (fst (handle_events pre g)); reflexivity.
Qed.

(** X16: while the game is on, a whole queue only fires: [handle_events]
    returns [False] exactly when the queue holds a [QUIT], and the game after
    it is the old one with, for each [K_SPACE] press before the first
    [QUIT], one new bullet of width 5, height 10 and speed 7 at
    [x = player.x + player.width // 2 - 2], [y = player.y], added at the end
    of the collection; restart keys, other keys and other events change
    nothing. *)
Theorem queue_while_playing (evs : list Event) (g : t) :
  game_over g = false ->
  handle_events evs g =
    (negb (existsb is_quit evs),
     set_bullets
       (bullets g
        ++ repeat (Bullet.mk (Player.x (player g) + Player.width (player g) / 2 - 2)
                             (Player.y (player g)) 5 10 7)
                  (fires evs)) g).
Proof.
  intros Hg. rewrite handle_events_playing_fires by exact Hg. reflexivity.
Qed.

Lemma queue_while_playing_witness :
  handle_events
    [KEYDOWN K_r; KEYDOWN K_SPACE; OTHER_EVENT; KEYDOWN K_LEFT; KEYDOWN K_SPACE;
     QUIT; KEYDOWN K_SPACE] init
  = (false, set_bullets [Bullet.mk 398 520 5 10 7; Bullet.mk 398 520 5 10 7] init).
Proof.
  exact (queue_while_playing
           [KEYDOWN K_r; KEYDOWN K_SPACE; OTHER_EVENT; KEYDOWN K_LEFT; KEYDOWN K_SPACE;
            QUIT; KEYDOWN K_SPACE] init eq_refl).
Defined.

Lemma handle_events_over_skip (evs : list Event) (g : t) :
  game_over g = true -> existsb is_quit evs = false -> ~ In (KEYDOWN K_r) evs ->
  handle_events evs g = (true, g).
Proof.
  intros Hg Hq Hr. rewrite (surjective_pairing (handle_events evs g)).
  rewrite handle_events_running, Hq, handle_events_over by assumption. reflexivity.
Qed.

(** X17: in a game that is over, the events before the first restart key
    are ignored, fire commands included, and the events after it are read
    as in a fresh game: the result is the initial game with one bullet for
    each later [K_SPACE] press (up to a [QUIT]), and nothing of the old game
    is left. *)
Theorem restart_in_queue (pre post : list Event) (g : t) :
  game_over g = true -> existsb is_quit pre = false -> ~ In (KEYDOWN K_r) pre ->
  handle_events (pre ++ KEYDOWN K_r :: post) g =
    (negb (existsb is_quit post),
     set_bullets (repeat (fired_bullet init) (fires post)) init).
Proof.
  intros Hg Hq Hr. rewrite handle_events_app.
  rewrite (handle_events_over_skip pre g Hg Hq Hr). cbn [fst snd handle_events Key_eqb].
  rewrite Hg. cbn [andb negb]. rewrite restart_game_init.
  now rewrite handle_events_playing_fires.
Qed.

Lemma restart_in_queue_witness :
  handle_events [KEYDOWN K_SPACE; OTHER_EVENT; KEYDOWN K_r; KEYDOWN K_SPACE]
    (mk (Player.init 200 520) [Bullet.init 223 300] [Alien.init 100 500] 40 0 true)
  = (true, set_bullets [Bullet.init 398 520] init).
Proof.
  apply (restart_in_queue [KEYDOWN K_SPACE; OTHER_EVENT] [KEYDOWN K_SPACE]
           (mk (Player.init 200 520) [Bullet.init 223 300] [Alien.init 100 500] 40 0 true)).
  - reflexivity.
  - reflexivity.
  - intros [H|[H|[]]]; discriminate H.
Defined.

Lemma run_iteration_running (evs : list Event) (keys : Pressed) (g : t) :
  fst (run_iteration evs keys g) = negb (existsb is_quit evs).
Proof. rewrite run_iteration_eq. cbn [fst]. apply handle_events_running. Qed.

Lemma run_cons (evs : list Event) (keys : Pressed)
    (rest : list (list Event * Pressed)) (g : t) :
  run ((evs, keys) :: rest) g =
    if existsb is_quit evs then snd (run_iteration evs keys g)
    else run rest (snd (run_iteration evs keys g)).
Proof.
  cbn [run]. pose proof (run_iteration_running evs keys g) as H.
  destruct (run_iteration evs keys g) as [running g1]. cbn [fst snd] in *. subst running.
  destruct (existsb is_quit evs); reflexivity.
Qed.

(** X18: [run] ends with the first frame whose queue holds a [QUIT]: that
    frame is still carried out and drawn like any other (in a game that is
    on, with its fire commands before the [QUIT], the held keys and all the
    simulation steps), the frames after it never happen, and frames without
    a [QUIT] simply follow one another. *)
Theorem run_ends_with_quit_frame (before after : list (list Event * Pressed))
    (evs : list Event) (keys : Pressed) (g : t) :
  (existsb is_quit evs = true ->
     run (before ++ (evs, keys) :: after) g = run (before ++ [(evs, keys)]) g /\
     run ((evs, keys) :: after) g = snd (run_iteration evs keys g) /\
     (game_over g = false ->
      run ((evs, keys) :: after) g =
        simulate keys (set_bullets (bullets g ++ repeat (fired_bullet g) (fires evs)) g))) /\
  (Forall (fun frame => existsb is_quit (fst frame) = false) before ->
     run (before ++ after) g = run after (run before g)).
Proof.
  split.
  - intros Hq. split; [|split].
    + revert g. induction before as [|[evs' keys'] before IH]; intros g; cbn [app].
      * now rewrite !run_cons, Hq.
      * rewrite !run_cons. destruct (existsb is_quit evs'); [reflexivity|apply IH].
    + now rewrite run_cons, Hq.
    + intros Hg. rewrite run_cons, Hq, run_iteration_eq. cbn [snd].
      rewrite handle_events_playing_fires by exact Hg. cbn [snd game_over set_bullets].
      now rewrite Hg.
  - intros H. revert g. induction H as [|[evs' keys'] before Hf _ IH]; intros g; cbn [app].
    + reflexivity.
    + cbn [fst] in Hf. rewrite !run_cons, Hf. apply IH.
Qed.

Lemma run_ends_with_quit_frame_witness :
  run [([], hold_left); ([KEYDOWN K_SPACE; QUIT], hold_left); ([KEYDOWN K_SPACE], hold_left)] init
  = run [([], hold_left); ([KEYDOWN K_SPACE; QUIT], hold_left)] init
  /\ run ([([], hold_left)] ++ [([], hold_nothing)]) init
      = run [([], hold_nothing)] (run [([], hold_left)] init).
Proof.
  split.
  - exact (proj1 (proj1 (run_ends_with_quit_frame
                           [([], hold_left)] [([KEYDOWN K_SPACE], hold_left)]
                           [KEYDOWN K_SPACE; QUIT] hold_left init) eq_refl)).
  - apply (proj2 (run_ends_with_quit_frame
                    [([], hold_left)] [([], hold_nothing)] [] hold_nothing init)).
    repeat constructor.
Defined.

(** ** Hit boxes and the floor line *)

(** X19: for a bullet and an alien of the sizes their constructors give
    (5 by 10 and 40 by 30), at coordinates that [pygame.Rect] holds without
    wrapping (each rectangle with its far edges inside the range of a C
    [int]), the collision test of [check_collisions] holds exactly when the
    bullet's corner is strictly inside the box
    [x_alien - 5 < x < x_alien + 40], [y_alien - 10 < y < y_alien + 30];
    rectangles that only touch do not collide. *)
Theorem bullet_hit_box (b : Bullet.t) (a : Alien.t) :
  bullet_rect_fits b -> alien_rect_fits a ->
  Bullet.width b = 5 -> Bullet.height b = 10 ->
  Alien.width a = 40 -> Alien.height a = 30 ->
  (overlaps b a = true <->
   Alien.x a - 5 < Bullet.x b < Alien.x a + 40 /\
   Alien.y a - 10 < Bullet.y b < Alien.y a + 30).
Proof.
  intros (Hbx & Hby & _ & _ & Hbr & Hbb) (Hax & Hay & _ & _ & Har & Hab)
         Hbw Hbh Haw Hah.
  rewrite Hbw, Hbh in *. rewrite Haw, Hah in *. unfold fits_c_int in *.
  unfold overlaps, Rect.colliderect, Bullet.get_rect, Alien.get_rect, Rect.make.
  cbn [Rect.x Rect.y Rect.w Rect.h]. rewrite Hbw, Hbh, Haw, Hah.
  change (c_int 5) with 5. change (c_int 10) with 10.
  change (c_int 40) with 40. change (c_int 30) with 30.
  cbn [Z.eqb orb]. c_int_small.
  rewrite !andb_true_iff, !Z.ltb_lt, !Z.gtb_ltb, !Z.ltb_lt. lia.
Qed.

Lemma bullet_hit_box_witness :
  overlaps (Bullet.init 86 100) (Alien.init 90 90) = true /\
  (overlaps (Bullet.init 85 100) (Alien.init 90 90) = true -> 90 - 5 < 85).
Proof.
  assert (Hb : forall x y, 0 <= x <= 1000 -> 0 <= y <= 1000 ->
                           bullet_rect_fits (Bullet.init x y)).
  { intros x y Hx Hy. unfold bullet_rect_fits, fits_c_int, Bullet.init.
    cbn [Bullet.x Bullet.y Bullet.width Bullet.height]. lia. }
  assert (Ha : alien_rect_fits (Alien.init 90 90)).
  { unfold alien_rect_fits, fits_c_int, Alien.init.
    cbn [Alien.x Alien.y Alien.width Alien.height]. lia. }
  split.
  - apply (proj2 (bullet_hit_box (Bullet.init 86 100) (Alien.init 90 90)
                    (Hb 86 100 ltac:(lia) ltac:(lia)) Ha
                    eq_refl eq_refl eq_refl eq_refl)).
    cbn. lia.
  - intros H.
    apply (proj1 (bullet_hit_box (Bullet.init 85 100) (Alien.init 90 90)
                    (Hb 85 100 ltac:(lia) ltac:(lia)) Ha
                    eq_refl eq_refl eq_refl eq_refl)) in H.
    exact (proj1 (proj1 H)).
Defined.

Lemma alien_formation_grid : Forall alien_on_grid alien_formation.
Proof.
  apply Forall_forall. intros a Ha. unfold alien_formation in Ha.
  apply in_flat_map in Ha as (row & _ & Ha).
  apply in_map_iff in Ha as (col & <- & _).
  split; [reflexivity|]. split; [reflexivity|].
  unfold Alien.init. cbn [Alien.y]. split; [lia|].
  exists (5 * Z.of_nat row + 5). lia.
Qed.

Lemma advance_grid (als : list Alien.t) :
  Forall alien_on_grid als -> Forall alien_on_grid (advance als).
Proof.
  intros H. unfold advance.
  destruct (existsb Alien.at_edge (map Alien.move als)).
  - rewrite map_map. apply Forall_map. revert H. apply Forall_impl.
    intros a (Hw & Hh & Hy & k & Hk). split; [exact Hw|]. split; [exact Hh|].
    unfold Alien.drop_down, Alien.move, ALIEN_DROP_SPEED. cbn [Alien.y].
    split; [lia|]. exists (k + 2). lia.
  - apply Forall_map. revert H. apply Forall_impl.
    intros a H. exact H.
Qed.

(** With the player on its row and the aliens on the grid, the overlap part
    of the breach test adds nothing to the floor part. *)
Lemma breaches_at_floor (p : Player.t) (a : Alien.t) :
  player_placed p -> alien_on_grid a ->
  breaches (Player.get_rect p) a = at_floor a.
Proof.
  intros (Hy & Hh & Hw & _) (Haw & Hah & Hay & k & Hk).
  unfold breaches, at_floor.
  destruct (Alien.y a >=? SCREEN_HEIGHT - 100) eqn:E; [apply orb_true_r|].
  rewrite orb_false_r. rewrite Z.geb_leb in E. apply Z.leb_gt in E.
  unfold Rect.colliderect, Alien.get_rect, Player.get_rect, Rect.make.
  cbn [Rect.x Rect.y Rect.w Rect.h].
  rewrite Hy, Hh, Hw, Haw, Hah. unfold SCREEN_HEIGHT in *.
  change (c_int 40) with 40. change (c_int 30) with 30. change (c_int 50) with 50.
  change (c_int (600 - 80)) with 520. cbn [Z.eqb orb].
  rewrite (c_int_fits (Alien.y a)) by (unfold fits_c_int; lia).
  rewrite (c_int_fits (Alien.y a + 30)) by (unfold fits_c_int; lia).
  change (c_int (520 + 40)) with 560.
  apply andb_false_iff. right. rewrite Z.gtb_ltb. apply Z.ltb_ge. lia.
Qed.

Lemma handle_events_aliens_player (evs : list Event) (g : t) :
  (aliens (snd (handle_events evs g)) = aliens g /\
   player (snd (handle_events evs g)) = player g) \/
  (aliens (snd (handle_events evs g)) = alien_formation /\
   player (snd (handle_events evs g)) = player init).
Proof.
  destruct (game_over g) eqn:Hg.
  - destruct (handle_events_over_shape evs g Hg) as [->|[k ->]];
      [left|right]; split; reflexivity.
  - rewrite handle_events_playing_fires by exact Hg. left. split; reflexivity.
Qed.

(** X20: on the state that the breach test of any frame of any run is given,
    the rectangle-overlap half of the test never decides: an alien breaches
    exactly when its [y] has reached [SCREEN_HEIGHT - 100 = 500].  The
    aliens' [y] stays a multiple of 10, and an alien that overlaps the
    player's row at [y = 520] has [y > 490]. *)
Theorem floor_line_decides_breach (frames : list (list Event * Pressed))
    (evs : list Event) (keys : Pressed) :
  let h := check_collisions
             (update_aliens
                (update_bullets
                   (handle_input keys (snd (handle_events evs (run frames init)))))) in
  breached h = existsb at_floor (aliens h).
Proof.
  intros h. unfold breached.
  assert (Hp : player_placed (player h)).
  { subst h. rewrite check_collisions_player, update_aliens_player.
    unfold update_bullets. cbn [player set_bullets].
    apply handle_input_placed.
    destruct (handle_events_aliens_player evs (run frames init)) as [[_ ->]|[_ ->]];
      [apply player_row_placed_along_runs|repeat split]. }
  assert (Ha : Forall alien_on_grid (aliens h)).
  { subst h. rewrite check_collisions_eq. cbn [aliens].
    apply (collide_bullets_aliens_invariant (Forall alien_on_grid)).
    { intros b als als' Hh. exact (hit_alien_Forall _ b als als' Hh). }
    rewrite update_aliens_advance. apply advance_grid.
    unfold wave, update_bullets. cbn [aliens set_bullets].
    rewrite handle_input_aliens.
    destruct (handle_events_aliens_player evs (run frames init)) as [[-> _]|[-> _]].
    - destruct (aliens (run frames init)) eqn:E; [exact alien_formation_grid|].
      rewrite <- E.
      apply (run_aliens_invariant (Forall alien_on_grid) alien_formation_grid
               (fun als H _ => advance_grid als H)
               (fun b als als' Hh => hit_alien_Forall _ b als als' Hh)).
    - exact alien_formation_grid. }
  revert Ha. generalize (aliens h). intros als Ha.
  induction Ha as [|a als Ha _ IH]; cbn [existsb]; [reflexivity|].
  now rewrite IH, (breaches_at_floor (player h) a Hp Ha).
Qed.

(** X21: in a state that a run of the game draws with the game still on,
    the rectangle of every alien lies inside the screen: the formation turns
    at the side walls and a breach is answered before the aliens get below
    [y = 500]. *)
Theorem aliens_drawn_inside_screen (frames : list (list Event * Pressed)) :
  game_over (run frames init) = false ->
  Forall alien_inside_screen (aliens (run frames init)).
Proof.
  intros Hg. apply no_breach_along_runs in Hg.
  apply existsb_false_Forall in Hg.
  destruct (aliens_ok_along_runs frames) as [_ Hals].
  rewrite Forall_forall in *. intros a Ha.
  specialize (Hg a Ha). destruct (Hals a Ha) as (Hw & Hh & _ & Hx & Hy).
  unfold breaches in Hg. apply orb_false_iff in Hg as [_ Hf].
  rewrite Z.geb_leb in Hf. apply Z.leb_gt in Hf.
  unfold alien_inside_screen, SCREEN_WIDTH, SCREEN_HEIGHT in *.
  rewrite Hw in *. rewrite Hh. lia.
Qed.

Lemma aliens_drawn_inside_screen_witness :
  Forall alien_inside_screen
    (aliens (run [([KEYDOWN K_SPACE], hold_left); ([], hold_nothing)] init)).
Proof.
  exact (aliens_drawn_inside_screen
           [([KEYDOWN K_SPACE], hold_left); ([], hold_nothing)] eq_refl).
Defined.

(** X22: the breach test changes nothing when no alien breaches; when one
    or more breach it takes exactly one life, whatever the number of lives
    was; it never changes the player, the bullets or the score, and the
    aliens are afterwards the old ones or a fresh formation. *)
Theorem breach_test_effect (g : t) :
  (breached g = false -> check_alien_collision_with_player g = g) /\
  (breached g = true -> lives (check_alien_collision_with_player g) = lives g - 1) /\
  player (check_alien_collision_with_player g) = player g /\
  bullets (check_alien_collision_with_player g) = bullets g /\
  score (check_alien_collision_with_player g) = score g /\
  (aliens (check_alien_collision_with_player g) = aliens g \/
   aliens (check_alien_collision_with_player g) = alien_formation).
Proof.
  unfold check_alien_collision_with_player at 3 4 5.
  rewrite breach_loop_player, breach_loop_bullets, breach_loop_score.
  rewrite check_alien_collision_spec.
  destruct (breached g).
  - split; [discriminate|].
    destruct (lives g - 1 <=? 0); repeat split; auto.
  - repeat split; auto. discriminate.
Qed.

Lemma breach_test_effect_witness :
  check_alien_collision_with_player init = init /\
  lives (check_alien_collision_with_player
           (set_aliens [Alien.init 100 500; Alien.init 200 500] init))
  = 3 - 1.
Proof.
  split.
  - exact (proj1 (breach_test_effect init) eq_refl).
  - exact (proj1 (proj2 (breach_test_effect
             (set_aliens [Alien.init 100 500; Alien.init 200 500] init)))
             eq_refl).
Defined.

(** ** What is drawn *)

Lemma draw_shapes (g : t) (cmd : Draw) :
  In cmd (draw g) -> is_shape cmd = true ->
  game_over g = false /\
  (In cmd (Player.draw (player g)) \/
   (exists b, In b (bullets g) /\ In cmd (Bullet.draw b)) \/
   (exists a, In a (aliens g) /\ In cmd (Alien.draw a))).
Proof.
  unfold draw. intros Hin Hs.
  apply in_app_or in Hin as [[<-|[]]|Hin]; [discriminate|].
  apply in_app_or in Hin as [Hin|Hin].
  - destruct (game_over g); cbn [negb] in Hin; [destruct Hin|].
    split; [reflexivity|].
    apply in_app_or in Hin as [Hin|Hin]; [now left|right].
    apply in_app_or in Hin as [Hin|Hin]; [left|right];
      apply in_flat_map in Hin; exact Hin.
  - apply in_app_or in Hin as [[<-|[<-|[]]]|Hin]; try discriminate.
    apply in_app_or in Hin as [Hin|[<-|[]]]; [|discriminate].
    destruct (game_over g); [|destruct Hin].
    destruct Hin as [<-|[<-|[]]]; discriminate.
Qed.

(** X23: every shape in the frame drawn for any state of any run lies
    inside the 800 by 600 window, with one exception: the rectangle of a
    bullet may reach above the top edge, by at most 7 rows and never with
    its lower edge.  So the player, the aliens and their domes are always
    drawn in full, and no bullet is drawn out of sight. *)
Theorem drawn_shapes_inside_window (frames : list (list Event * Pressed))
    (cmd : Draw) (x0 y0 x1 y1 : Z) :
  In cmd (draw (run frames init)) -> bbox cmd = Some (x0, y0, x1, y1) ->
  0 <= x0 < x1 /\ x1 <= SCREEN_WIDTH /\
  - BULLET_SPEED <= y0 < y1 /\ 0 < y1 <= SCREEN_HEIGHT /\
  (y0 < 0 -> exists r, cmd = draw_rect YELLOW r).
Proof.
  intros Hin Hbox.
  assert (Hs : is_shape cmd = true) by (unfold is_shape; now rewrite Hbox).
  destruct (draw_shapes _ _ Hin Hs) as [Hg Hcases].
  destruct (bullets_invariant frames) as (Hp & Hq & Hbs & _).
  destruct Hp as (_ & _ & _ & Hpx). destruct Hq as (Hpy & Hph & Hpw & _).
  rewrite Hpw in Hpx.
  pose proof (no_breach_along_runs frames Hg) as Hnb.
  apply existsb_false_Forall in Hnb.
  destruct (aliens_ok_along_runs frames) as [_ Hals].
  unfold SCREEN_WIDTH, SCREEN_HEIGHT, BULLET_SPEED in *.
  destruct Hcases as [Hc|[(b & Hb & Hc)|(a & Ha & Hc)]].
  - destruct Hc as [<-|[<-|[]]]; cbn [bbox fold_left] in Hbox;
      injection Hbox as <- <- <- <-; rewrite ?Hpy, ?Hph, ?Hpw;
      change (50 / 2) with 25; repeat split; lia.
  - rewrite Forall_forall in Hbs. destruct (Hbs b Hb) as (Hw & Hh & _ & Hx & Hy).
    destruct Hc as [<-|[]]. cbn [bbox] in Hbox. injection Hbox as <- <- <- <-.
    rewrite Hw, Hh. unfold BULLET_SPEED in *. repeat split; try lia.
    intros _. eexists. reflexivity.
  - rewrite Forall_forall in Hals, Hnb.
    destruct (Hals a Ha) as (Hw & Hh & _ & Hx & Hy). specialize (Hnb a Ha).
    unfold breaches in Hnb. apply orb_false_iff in Hnb as [_ Hf].
    rewrite Z.geb_leb in Hf. apply Z.leb_gt in Hf. rewrite Hw in Hx.
    unfold SCREEN_WIDTH, SCREEN_HEIGHT in *.
    destruct Hc as [<-|[<-|[]]]; cbn [bbox] in Hbox;
      injection Hbox as <- <- <- <-; rewrite ?Hw, ?Hh; repeat split; lia.
Qed.

Lemma drawn_shapes_inside_window_witness :
  0 <= 375 < 375 + 50 /\ 375 + 50 <= SCREEN_WIDTH /\
  - BULLET_SPEED <= 520 < 520 + 40 /\ 0 < 520 + 40 <= SCREEN_HEIGHT /\
  (520 < 0 -> exists r, draw_rect GREEN (375, 520, 50, 40) = draw_rect YELLOW r).
Proof.
  apply (drawn_shapes_inside_window [] (draw_rect GREEN (375, 520, 50, 40))).
  - right. left. reflexivity.
  - reflexivity.
Defined.




(** X25: for bullets and an alien at coordinates that [pygame.Rect] holds
    without wrapping: when a single alien is left and several bullets
    overlap it, the first of them in the collection takes it: that bullet
    and the alien are removed for 10 points, the collection of aliens is
    empty, and every other bullet stays, those that overlapped the alien
    too. *)
Theorem last_alien_goes_to_first_bullet (g : t) (a : Alien.t)
    (pre post : list Bullet.t) (b : Bullet.t) :
  rects_fit g ->
  aliens g = [a] -> bullets g = pre ++ b :: post ->
  Forall (fun b' => overlaps b' a = false) pre -> overlaps b a = true ->
  check_collisions g =
    set_score (score g + 10) (set_aliens [] (set_bullets (pre ++ post) g)).
Proof.
  intros _ Ha Hb Hpre Hhit. rewrite check_collisions_eq, Ha, Hb.
  rewrite collide_bullets_app.
  rewrite (collide_bullets_all_miss pre [a] (score g)).
  - cbn [collide_bullets hit_alien]. fold (overlaps b a). rewrite Hhit.
    rewrite (collide_bullets_all_miss post [] (score g + 10)).
    + reflexivity.
    + apply Forall_forall. reflexivity.
  - revert Hpre. apply Forall_impl. intros b' H. cbn [existsb]. now rewrite H.
Qed.

Lemma last_alien_goes_to_first_bullet_witness :
  check_collisions
    (mk (Player.init 375 520) [Bullet.init 10 10; Bullet.init 100 100; Bullet.init 101 101]
        [Alien.init 90 90] 0 3 false)
  = mk (Player.init 375 520) [Bullet.init 10 10; Bullet.init 101 101] [] 10 3 false.
Proof.
  apply (last_alien_goes_to_first_bullet
           (mk (Player.init 375 520)
               [Bullet.init 10 10; Bullet.init 100 100; Bullet.init 101 101]
               [Alien.init 90 90] 0 3 false)
           (Alien.init 90 90) [Bullet.init 10 10] [Bullet.init 101 101]
           (Bullet.init 100 100)).
  - split; repeat constructor; vm_compute; discriminate.
  - reflexivity.
  - reflexivity.
  - repeat constructor.
  - reflexivity.
Defined.

(** ** The formation over a whole frame *)

(** A frame without events, keys or bullets, in which no alien reaches the
    floor line, only advances the formation. *)
Lemma idle_frame (g : t) :
  game_over g = false -> bullets g = [] -> aliens g <> [] ->
  player_placed (player g) -> Forall alien_on_grid (aliens g) ->
  existsb at_floor (advance (aliens g)) = false ->
  run_iteration [] hold_nothing g = (true, set_aliens (advance (aliens g)) g).
Proof.
  intros Hg Hb Ha Hp Hgrid Hfloor.
  rewrite run_iteration_eq. cbn [handle_events fst snd]. rewrite Hg. f_equal.
  unfold simulate. rewrite handle_input_nothing.
  assert (Hub : update_bullets g = g).
  { rewrite update_bullets_spec, Hb. destruct g; cbn in Hb; subst; reflexivity. }
  rewrite Hub.
  assert (Hua : update_aliens g = set_aliens (advance (aliens g)) g).
  { rewrite update_aliens_spec. unfold advance, wave.
    destruct (aliens g); [congruence|reflexivity]. }
  rewrite Hua.
  assert (Hcc : check_collisions (set_aliens (advance (aliens g)) g)
                = set_aliens (advance (aliens g)) g).
  { rewrite check_collisions_eq. unfold set_aliens.
    cbn [bullets aliens score player lives game_over].
    rewrite Hb. reflexivity. }
  rewrite Hcc, check_alien_collision_spec.
  assert (Hbr : breached (set_aliens (advance (aliens g)) g) = false).
  { unfold breached. cbn [player aliens set_aliens].
    rewrite <- Hfloor. generalize (advance_grid _ Hgrid).
    generalize (advance (aliens g)). intros als Hals.
    induction Hals as [|a als Ha' _ IH]; cbn [existsb]; [reflexivity|].
    now rewrite IH, (breaches_at_floor (player g) a Hp Ha'). }
  now rewrite Hbr.
Qed.

Lemma idle_run (n : nat) (g : t) :
  game_over g = false -> bullets g = [] -> aliens g <> [] ->
  player_placed (player g) -> Forall alien_on_grid (aliens g) ->
  idle_frames_ok n (aliens g) = true ->
  run (repeat ([], hold_nothing) n) g = set_aliens (Nat.iter n advance (aliens g)) g.
Proof.
  revert g. induction n as [|n IH]; intros g Hg Hb Ha Hp Hgrid Hok.
  - cbn [repeat run Nat.iter nat_rect]. now destruct g.
  - cbn [idle_frames_ok] in Hok. apply andb_true_iff in Hok as [Hfloor Hok].
    apply negb_true_iff in Hfloor.
    cbn [repeat run]. rewrite (idle_frame g Hg Hb Ha Hp Hgrid Hfloor).
    rewrite IH; cbn [game_over bullets aliens player set_aliens]; try assumption.
    + rewrite Nat.iter_succ_r. reflexivity.
    + intros H. apply (f_equal (@length _)) in H. rewrite advance_length in H.
      destruct (aliens g); [congruence|discriminate].
    + now apply advance_grid.
Qed.

(** C6 (as stated, refuted on a run of the game): after 2809 idle frames the
    formation has dropped twelve times, every alien is 240 below its start
    row and moves right.  Frame 2810 detects an edge hit; the drop brings the
    last row to [y = 510], which is a breach, and the frame ends with a fresh
    formation and two lives: no alien is 20 lower than before the frame and
    no direction has flipped. *)
Lemma edge_hit_frame_ends_with_fresh_formation :
  let g := run (repeat ([], hold_nothing) 2809) init in
  let g' := snd (run_iteration [] hold_nothing g) in
  (game_over g, existsb Alien.at_edge (map Alien.move (aliens g)),
   map Alien.y (aliens g), map Alien.direction (aliens g),
   map Alien.y (aliens g'), map Alien.direction (aliens g'), lives g')
  = (false, true,
     map (fun a => Alien.y a + 240) alien_formation, repeat 1 50%nat,
     map Alien.y alien_formation, repeat 1 50%nat, 2).
Proof.
  cbv zeta. rewrite (idle_run 2809 init).
  - vm_compute. reflexivity.
  - reflexivity.
  - reflexivity.
  - intros H. apply (f_equal (@length _)) in H. discriminate H.
  - repeat split.
  - exact alien_formation_grid.
  - vm_compute. reflexivity.
Qed.

Lemma frame_aliens_updated (evs : list Event) (keys : Pressed) (g : t) :
  game_over g = false ->
  aliens (update_aliens (update_bullets (handle_input keys (snd (handle_events evs g)))))
  = advance (wave g).
Proof.
  intros Hg. rewrite update_aliens_advance. unfold wave.
  rewrite update_bullets_spec. cbn [aliens set_bullets].
  rewrite handle_input_aliens, handle_events_playing_fires by exact Hg.
  reflexivity.
Qed.

(** C6 (amended): in every state that a run of the game draws all aliens
    share one direction, +1 or -1, and no step of a frame produces mixed
    directions.  In a frame of a game that is on, [update_aliens] decides on
    the edge hit over the whole moved formation and then treats all aliens
    alike: with an edge hit every alien has moved, dropped by exactly 20 and
    flipped its direction, without one every alien has only moved.  The
    aliens at the end of the frame are these, less the ones that bullets
    removed, unless the breach test of the frame finds a breach with more
    than one life left: then the frame ends with a fresh formation. *)
Theorem formation_synchrony_per_frame :
  (forall frames, uniform_direction (aliens (run frames init))) /\
  (forall g evs keys,
     game_over g = false ->
     let u := update_aliens (update_bullets (handle_input keys (snd (handle_events evs g)))) in
     let h := check_collisions u in
     let g' := snd (run_iteration evs keys g) in
     (existsb Alien.at_edge (map Alien.move (wave g)) = true ->
        aliens u = map Alien.drop_down (map Alien.move (wave g)) /\
        Forall2 moved_and_dropped (wave g) (aliens u)) /\
     (existsb Alien.at_edge (map Alien.move (wave g)) = false ->
        aliens u = map Alien.move (wave g) /\
        Forall2 moved_only (wave g) (aliens u)) /\
     subsequence (aliens h) (aliens u) /\
     (breached h = false -> aliens g' = aliens h) /\
     (breached h = true -> lives g <= 1 ->
        aliens g' = aliens h /\ game_over g' = true) /\
     (breached h = true -> 1 < lives g -> aliens g' = alien_formation) /\
     (uniform_direction (aliens g) ->
        uniform_direction (aliens u) /\ uniform_direction (aliens h) /\
        uniform_direction (aliens g'))).
Proof.
  split; [intros frames; apply run_uniform, uniform_formation|].
  intros g evs keys Hg u h g'.
  assert (Hu : aliens u = advance (wave g)) by (now apply frame_aliens_updated).
  assert (Hg' : g' = check_alien_collision_with_player h).
  { subst g' h u. rewrite run_iteration_eq. cbn [snd].
    rewrite handle_events_playing_fires by exact Hg. cbn [snd game_over set_bullets].
    rewrite Hg. reflexivity. }
  assert (Hl : lives h = lives g).
  { subst h u. rewrite check_collisions_lives, update_aliens_lives.
    rewrite update_bullets_spec. cbn [lives set_bullets].
    rewrite handle_input_lives, handle_events_playing_fires by exact Hg. reflexivity. }
  split; [|split; [|split; [|split; [|split; [|split]]]]].
  - intros E. rewrite Hu. unfold advance. rewrite E. split; [reflexivity|].
    rewrite map_map. apply Forall2_map_r. intros a.
    unfold moved_and_dropped, Alien.drop_down, Alien.move.
    cbn [Alien.x Alien.y Alien.direction]. repeat split; lia.
  - intros E. rewrite Hu. unfold advance. rewrite E. split; [reflexivity|].
    apply Forall2_map_r. intros a. unfold moved_only, Alien.move.
    cbn [Alien.x Alien.y Alien.direction]. repeat split; lia.
  - subst h. rewrite check_collisions_eq. cbn [aliens].
    apply collide_bullets_subsequence.
  - intros Hb. rewrite Hg', check_alien_collision_spec, Hb. reflexivity.
  - intros Hb Hlives. rewrite Hg', check_alien_collision_spec, Hb, Hl.
    destruct (Z.leb_spec (lives g - 1) 0) as [_|H]; [|lia]. split; reflexivity.
  - intros Hb Hlives. rewrite Hg', check_alien_collision_spec, Hb, Hl.
    destruct (Z.leb_spec (lives g - 1) 0) as [H|_]; [lia|]. reflexivity.
  - intros Hun.
    assert (H1 : uniform_direction (aliens u)).
    { rewrite Hu. unfold advance. apply uniform_wave, uniform_move in Hun.
      destruct (existsb Alien.at_edge (map Alien.move (wave g)));
        [apply uniform_drop_down|]; exact Hun. }
    assert (H2 : uniform_direction (aliens h)) by (now apply check_collisions_uniform).
    split; [exact H1|]. split; [exact H2|].
    rewrite Hg'. unfold check_alien_collision_with_player. now apply breach_loop_uniform.
Qed.

Lemma formation_synchrony_per_frame_witness :
  let g := set_aliens [Alien.init 759 50; Alien.init 100 100] init in
  aliens (update_aliens (update_bullets (handle_input hold_nothing (snd (handle_events [] g)))))
  = [Alien.mk 760 70 40 30 1 (-1); Alien.mk 101 120 40 30 1 (-1)]
  /\ aliens (snd (run_iteration [] hold_nothing g))
     = aliens (check_collisions
                 (update_aliens
                    (update_bullets (handle_input hold_nothing (snd (handle_events [] g)))))).
Proof.
  intros g.
  destruct (proj2 formation_synchrony_per_frame g [] hold_nothing eq_refl)
    as (Hedge & _ & _ & Hkeep & _).
  split.
  - exact (proj1 (Hedge eq_refl)).
  - exact (Hkeep eq_refl).
Defined.
